(** * app93.py: OCR text clean-up, chunked completion workflow and PDF layout

    A shallow embedding of the helper functions of [src/app93.py]
    ([clean_text], [pdf_to_text], [call_groq], [call_groq_chunk],
    [groq_fill_missing], [groq_answer_question], [generate_pdf]) and of the
    page script that calls them, and the properties of them that the
    specification states or that the code shows.

    Python [str] values are lists of Unicode code points, Python [int]s are
    [Z].  The network, the UI calls and the PDF canvas are modelled by an
    explicit event trace and a list of canvas operations. *)

From Stdlib Require Import List ZArith NArith Lia Bool QArith_base.
From Stdlib Require String Ascii.
Import ListNotations String.StringSyntax.
Delimit Scope string_scope with string.

Local Open Scope Z_scope.

(* ================================================================== *)
(** * Python primitives used by the program *)
(* ================================================================== *)

Module Py.

(** A character is its code point, a string a list of them. *)
Definition char := N.
Definition str := list char.

(** A string literal of the source (all of them are ASCII). *)
Definition lit (s : String.string) : str :=
  map Ascii.N_of_ascii (String.list_ascii_of_string s).
Arguments lit s%_string.

Definition len {A} (s : list A) : Z := Z.of_nat (length s).

Definition SPACE : char := 32%N.
Definition TAB : char := 9%N.
Definition NL : char := 10%N.

(** [Py_UNICODE_ISSPACE]: the characters [str.strip()] removes and the
    class [\s] of [re] matches on [str] patterns. *)
Definition isspace (c : char) : bool :=
  ((9 <=? c) && (c <=? 13) || (28 <=? c) && (c <=? 32)
   || (c =? 133) || (c =? 160) || (c =? 5760)
   || (8192 <=? c) && (c <=? 8202)
   || (c =? 8232) || (c =? 8233) || (c =? 8239) || (c =? 8287)
   || (c =? 12288))%N.

Fixpoint lstrip (s : str) : str :=
  match s with
  | c :: s' => if isspace c then lstrip s' else s
  | [] => []
  end.

Definition rstrip (s : str) : str := rev (lstrip (rev s)).

Definition strip (s : str) : str := rstrip (lstrip s).

(** Truth value of a string: [if s] holds unless [s] is empty. *)
Definition truthy (s : str) : bool :=
  match s with [] => false | _ :: _ => true end.

(** [s[i:j]], with Python's treatment of negative and out-of-range
    bounds. *)
Definition clamp (n k : Z) : Z :=
  if k <? 0 then Z.max 0 (k + n) else Z.min k n.

Definition slice {A} (s : list A) (i j : Z) : list A :=
  let a := clamp (len s) i in
  let b := clamp (len s) j in
  firstn (Z.to_nat (b - a)) (skipn (Z.to_nat a) s).

(** [s[:j]] and [s[i:]]. *)
Definition slice_to {A} (s : list A) (j : Z) : list A := slice s 0 j.
Definition slice_from {A} (s : list A) (i : Z) : list A := slice s i (len s).

(** [range(start, stop, step)] for a positive step: the values
    [start, start+step, ...] below [stop].  No more than [stop - start]
    values exist, which bounds the iteration. *)
Fixpoint range_from (fuel : nat) (i stop step : Z) : list Z :=
  match fuel with
  | O => []
  | S fuel' =>
      if i <? stop then i :: range_from fuel' (i + step) stop step else []
  end.

Definition range (start stop step : Z) : list Z :=
  range_from (Z.to_nat (stop - start)) start stop step.

(** [s.split("\n")]: the pieces between the separators; never empty. *)
Fixpoint split (sep : char) (s : str) : list str :=
  match s with
  | [] => [[]]
  | c :: s' =>
      if (c =? sep)%N then [] :: split sep s'
      else match split sep s' with
           | piece :: pieces => (c :: piece) :: pieces
           | [] => [[c]]
           end
  end.

(** [sep.join(pieces)]. *)
Fixpoint join (sep : str) (pieces : list str) : str :=
  match pieces with
  | [] => []
  | [p] => p
  | p :: ps => p ++ sep ++ join sep ps
  end.

End Py.

Import Py.

(* ================================================================== *)
(** * Chunking (groq_fill_missing, the list comprehension) *)
(* ================================================================== *)

Definition CHUNK_SIZE : Z := 4000.
Definition SPLIT_THRESHOLD : Z := 8000.

(** [[text[i:i+n] for i in range(0, len(text), n)]] *)
Definition chunks_of (n : Z) (text : str) : list str :=
  map (fun i => slice text i (i + n)) (range 0 (len text) n).

Definition chunks (text : str) : list str := chunks_of CHUNK_SIZE text.

(** Ceiling of a quotient of integers. *)
Definition ceil_div (a b : Z) : Z := - ((- a) / b).

(* ================================================================== *)
(** * Regular expressions of the shape the program uses *)
(* ================================================================== *)

(** Both patterns of [clean_text] are sequences of character classes, each
    taken once, or under a greedy [*] or [+].  [match_here] is the
    backtracking matcher of [re] on such patterns: it returns what is left
    of the subject after the first match in priority order (longest
    repetition first), or [None]. *)
Module Re.

Inductive quant := One | Star | Plus.

Definition item := ((char -> bool) * quant)%type.
Definition pattern := list item.

(** [c*] followed by the continuation [k]: take as many characters as
    possible, give them back one at a time until [k] succeeds. *)
Fixpoint star (c : char -> bool) (k : str -> option str) (s : str)
  : option str :=
  match s with
  | x :: s' =>
      if c x then
        match star c k s' with
        | Some rest => Some rest
        | None => k s
        end
      else k s
  | [] => k s
  end.

Fixpoint match_here (p : pattern) (s : str) : option str :=
  match p with
  | [] => Some s
  | (c, One) :: p' =>
      match s with
      | x :: s' => if c x then match_here p' s' else None
      | [] => None
      end
  | (c, Star) :: p' => star c (match_here p') s
  | (c, Plus) :: p' =>
      match s with
      | x :: s' => if c x then star c (match_here p') s' else None
      | [] => None
      end
  end.

(** [re.sub(p, repl, s)] for a replacement without group references:
    scan from the left, replace every match, copy the characters where
    no match starts.  An empty match is replaced and the scan moves one
    character on.  Every step consumes a character, so the [length s + 1]
    steps that [sub] allows are enough and the case [O] is not reached
    ([sub_from_enough] below). *)
Fixpoint sub_from (fuel : nat) (p : pattern) (repl s : str) : str :=
  match fuel with
  | O => s
  | S fuel' =>
      let copy :=
        match s with
        | [] => []
        | x :: s' => x :: sub_from fuel' p repl s'
        end in
      match match_here p s with
      | Some rest =>
          if (length rest <? length s)%nat
          then repl ++ sub_from fuel' p repl rest
          else repl ++ copy
      | None => copy
      end
  end.

Definition sub (p : pattern) (repl s : str) : str :=
  sub_from (S (length s)) p repl s.

End Re.

(* ================================================================== *)
(** * clean_text *)
(* ================================================================== *)

Definition is_nl (c : char) : bool := (c =? NL)%N.
Definition is_blank (c : char) : bool := ((c =? SPACE) || (c =? TAB))%N.

(** [[ \t]+] *)
Definition BLANKS : Re.pattern := [(is_blank, Re.Plus)].

(** [\n\s*\n+] *)
Definition BLANK_LINES : Re.pattern :=
  [(is_nl, Re.One); (isspace, Re.Star); (is_nl, Re.Plus)].

Definition clean_text (text : str) : str :=
  let text := Re.sub BLANKS [SPACE] text in
  let text := Re.sub BLANK_LINES [NL; NL] text in
  strip text.

(* ================================================================== *)
(** * Effects: the event trace *)
(* ================================================================== *)

(** The body of the POST request ([headers] and [json] of the source). *)
Record Request := {
  authorization : str;   (* the key of the "Bearer" header *)
  model : str;
  content : str;         (* the single user message *)
  temperature : Q;
  max_tokens : Z
}.

(** What [resp.json()['choices'][0]['message']['content']] gives: a string,
    or an exception when the body has no such string. *)
Inductive Body :=
| Content (c : str)
| BadBody (e : str).

(** What [requests.post] gives: a response, or an exception. *)
Inductive Response :=
| Http (status_code : Z) (text : str) (body : Body)
| Raised (e : str).

(** The messages the program shows, by the f-string that formats them. *)
Inductive Message :=
| PopplerError (e : str)            (* "Poppler/convert error: {e}" *)
| GroqError (status : Z) (text : str) (* "[Groq Error {status}] {text}" *)
| GroqException (e : str)           (* "[Groq Exception] {e}" *)
| TextTooLarge                      (* "OCR text too large, ..." *)
| FillingChunk (idx total : Z).     (* "Filling chunk {idx}/{total}" *)

Inductive Event :=
| Post (req : Request)     (* requests.post(..., timeout=30) *)
| Sleep (secs : Z)         (* time.sleep *)
| StError (m : Message)    (* st.error *)
| StWarning (m : Message)  (* st.warning *)
| StInfo (m : Message).    (* st.info *)

Definition Trace := list Event.

(** The requests sent so far, oldest first. *)
Fixpoint posted (tr : Trace) : list Request :=
  match tr with
  | [] => []
  | Post req :: tr' => req :: posted tr'
  | _ :: tr' => posted tr'
  end.

(** A computation that reads and extends the trace. *)
Definition M (A : Type) : Type := Trace -> A * Trace.

Definition ret {A} (a : A) : M A := fun tr => (a, tr).

Definition bind {A B} (m : M A) (k : A -> M B) : M B :=
  fun tr => let (a, tr') := m tr in k a tr'.

Notation "x <- m ;; k" := (bind m (fun x => k))
  (at level 61, m at next level, right associativity).
Notation "m ;;; k" := (bind m (fun _ => k))
  (at level 61, right associativity).

Definition emit (e : Event) : M unit := fun tr => (tt, tr ++ [e]).

Definition st_error (m : Message) : M unit := emit (StError m).
Definition st_warning (m : Message) : M unit := emit (StWarning m).
Definition st_info (m : Message) : M unit := emit (StInfo m).
Definition time_sleep (secs : Z) : M unit := emit (Sleep secs).

(* ================================================================== *)
(** * The completion client and the two workflows *)
(* ================================================================== *)

Definition FILL_FALLBACK : str := lit "AI filling failed.".
Definition ANSWER_FALLBACK : str := lit "AI failed to answer.".
Definition MISSING_KEY : str := lit "Missing GROQ_API_KEY".
Definition FAILED_AFTER_RETRIES : str := lit "Failed after retries".

Definition fill_prompt (chunk : str) : str :=
  [NL]
  ++ lit "You are an expert form assistant. The scanned form text below has missing values like 'N/A', 'nan', or '---'."
  ++ [NL]
  ++ lit "Please fill missing values realistically, preserving format."
  ++ [NL; NL]
  ++ lit "--- FORM START ---" ++ [NL]
  ++ chunk ++ [NL]
  ++ lit "--- FORM END ---" ++ [NL].

Definition answer_prompt (filled_text question : str) : str :=
  [NL]
  ++ lit "You are a document information extractor." ++ [NL]
  ++ lit "Answer the user's question based ONLY on the given form text."
  ++ [NL]
  ++ lit "If the answer is not explicitly present, reply "
  ++ [34%N] ++ lit "Not available in the form." ++ [34%N]
  ++ [NL; NL]
  ++ lit "--- FORM START ---" ++ [NL]
  ++ filled_text ++ [NL]
  ++ lit "--- FORM END ---" ++ [NL; NL]
  ++ lit "Question: " ++ question ++ [NL]
  ++ lit "Answer:" ++ [NL].

(** [content if content else fallback] *)
Definition or_fallback (content : option str) (fallback : str) : str :=
  match content with
  | Some c => if truthy c then c else fallback
  | None => fallback
  end.

Section Client.

(** The configuration read from the environment when the module loads. *)
Variable GROQ_API_KEY : str.
Variable GROQ_MODEL : str.

(** The remote endpoint: its answer to a request, given how many requests
    were sent before it. *)
Variable transport : nat -> Request -> Response.

Definition requests_post (req : Request) : M Response :=
  fun tr => (transport (length (posted tr)) req, tr ++ [Post req]).

(** The loop [for attempt in range(3)] with [n] iterations left, and the
    [return] after it. *)
Fixpoint attempts (n : nat) (req : Request) : M (option str * option str) :=
  match n with
  | O => ret (None, Some FAILED_AFTER_RETRIES)
  | S n' =>
      resp <- requests_post req ;;
      match resp with
      | Http status_code text body =>
          if status_code =? 200 then
            match body with
            | Content c => ret (Some (strip c), None)
            | BadBody e =>
                st_error (GroqException e) ;;;
                time_sleep 2 ;;;
                attempts n' req
            end
          else
            st_error (GroqError status_code text) ;;;
            time_sleep 2 ;;;
            attempts n' req
      | Raised e =>
          st_error (GroqException e) ;;;
          time_sleep 2 ;;;
          attempts n' req
      end
  end.

(** [headers] and [data] *)
Definition request_for (prompt : str) (temperature : Q) (max_tokens : Z)
  : Request :=
  {| authorization := GROQ_API_KEY;
     model := GROQ_MODEL;
     content := prompt;
     temperature := temperature;
     max_tokens := max_tokens |}.

Definition call_groq (prompt : str) (temperature : Q) (max_tokens : Z)
  : M (option str * option str) :=
  if negb (truthy GROQ_API_KEY) then ret (None, Some MISSING_KEY)
  else attempts 3 (request_for prompt temperature max_tokens).

Definition call_groq_chunk (chunk : str) : M str :=
  r <- call_groq (fill_prompt chunk) (2 # 10) 1300 ;;
  ret (or_fallback (fst r) FILL_FALLBACK).

(** The loop [for idx, chunk in enumerate(chunks, start=1)]. *)
Fixpoint fill_loop (total idx : Z) (todo : list str) (filled_chunks : list str)
  : M (list str) :=
  match todo with
  | [] => ret filled_chunks
  | chunk :: todo' =>
      st_info (FillingChunk idx total) ;;;
      filled <- call_groq_chunk chunk ;;
      fill_loop total (idx + 1) todo' (filled_chunks ++ [filled])
  end.

Definition groq_fill_missing (text : str) : M str :=
  if SPLIT_THRESHOLD <? len text then
    st_warning TextTooLarge ;;;
    filled_chunks <- fill_loop (len (chunks text)) 1 (chunks text) [] ;;
    ret (join [NL] filled_chunks)
  else call_groq_chunk text.

Definition groq_answer_question (filled_text question : str) : M str :=
  r <- call_groq (answer_prompt filled_text question) 0 400 ;;
  ret (or_fallback (fst r) ANSWER_FALLBACK).

End Client.

(* ================================================================== *)
(** * pdf_to_text and the session *)
(* ================================================================== *)

Section OCR.

(** The uploaded file and the page images are opaque; the rasteriser and
    the OCR engine are external.  Either may raise. *)
Variables (pdf image : Type).
Variable convert_from_bytes : pdf -> list image + str.
Variable image_to_string : image -> option str.

(** The loop [for img in images]; [None] when the OCR engine raises, which
    nothing catches. *)
Fixpoint ocr_pages (images : list image) (full_text : str) : option str :=
  match images with
  | [] => Some full_text
  | img :: images' =>
      match image_to_string img with
      | Some page_text =>
          ocr_pages images' (full_text ++ clean_text page_text ++ [NL; NL])
      | None => None
      end
  end.

Definition pdf_to_text (pdf_file : pdf) : M (option str) :=
  match convert_from_bytes pdf_file with
  | inr e => st_error (PopplerError e) ;;; ret (Some [])
  | inl images => ret (ocr_pages images [])
  end.

(** [st.session_state] *)
Record Session := {
  ocr_text : str;
  filled_text : str;
  qa_history : list (str * str)
}.

(** The first step of the UI flow on a run with an uploaded file; [None]
    when the run dies of an exception. *)
Definition upload_step (uploaded_file : pdf) (s : Session)
  : M (option Session) :=
  if negb (truthy (ocr_text s)) then
    r <- pdf_to_text uploaded_file ;;
    ret (match r with
         | Some t => Some {| ocr_text := t;
                             filled_text := filled_text s;
                             qa_history := qa_history s |}
         | None => None
         end)
  else ret (Some s).

End OCR.

(* ================================================================== *)
(** * generate_pdf *)
(* ================================================================== *)

(** The calls made on the reportlab canvas, in order. *)
Inductive CanvasOp :=
| SetFont (name : str) (size : Z)
| DrawString (x y : Z) (text : str)
| ShowPage
| Save.

(** [reportlab.lib.pagesizes.LETTER], in points. *)
Definition LETTER : Z * Z := (612, 792).

Definition WRAP : Z := 110.
Definition LINE_HEIGHT : Z := 12.
Definition MARGIN : Z := 40.

(** The loop [while len(line) > 110]; it ends within [length line]
    iterations. *)
Fixpoint wrap_loop (fuel : nat) (line : str) (y : Z) (c : list CanvasOp)
  : str * Z * list CanvasOp :=
  match fuel with
  | O => (line, y, c)
  | S fuel' =>
      if WRAP <? len line then
        wrap_loop fuel' (slice_from line WRAP) (y - LINE_HEIGHT)
                  (c ++ [DrawString MARGIN y (slice_to line WRAP)])
      else (line, y, c)
  end.

(** One iteration of [for line in filled_text.split("\n")], on the cursor
    [y] and the canvas [c]. *)
Definition draw_line (height : Z) (st : Z * list CanvasOp) (line : str)
  : Z * list CanvasOp :=
  let '(y, c) := st in
  if negb (truthy (strip line)) then (y - LINE_HEIGHT, c)
  else
    let '(line, y, c) := wrap_loop (length line) line y c in
    let c := c ++ [DrawString MARGIN y (strip line)] in
    let y := y - LINE_HEIGHT in
    if y <? MARGIN then
      (height - MARGIN, c ++ [ShowPage; SetFont (lit "Helvetica") 10])
    else (y, c).

Definition TITLE : str := lit "Final Clean Form (AI-filled)".

(** The cursor and the canvas after the loop over the lines. *)
Definition layout (filled_text : str) : Z * list CanvasOp :=
  let '(width, height) := LETTER in
  let y := height - MARGIN in
  let c := [SetFont (lit "Helvetica-Bold") 14; DrawString MARGIN y TITLE] in
  let y := y - 30 in
  let c := c ++ [SetFont (lit "Helvetica") 10] in
  fold_left (draw_line height) (split NL filled_text) (y, c).

Definition generate_pdf (filled_text : str) : list CanvasOp :=
  snd (layout filled_text) ++ [Save].

(** The text drawn, with the vertical position of each [drawString]. *)
Fixpoint drawn (c : list CanvasOp) : list (Z * str) :=
  match c with
  | [] => []
  | DrawString _ y text :: c' => (y, text) :: drawn c'
  | _ :: c' => drawn c'
  end.

(* ================================================================== *)
(** * Specification-side notions *)
(* ================================================================== *)

(** The chunks are completed one after the other, in list order: the call
    for a chunk starts on the trace the previous one left.  [results] are
    what [call_groq] returned for each chunk. *)
Inductive in_order (key mdl : str) (transport : nat -> Request -> Response)
    (total : Z)
  : Z -> list str -> Trace -> list (option str * option str) -> Trace -> Prop :=
| in_order_nil idx tr :
    in_order key mdl transport total idx [] tr [] tr
| in_order_cons idx chunk todo tr r tr1 results tr2 :
    call_groq key mdl transport (fill_prompt chunk) (2 # 10) 1300
              (tr ++ [StInfo (FillingChunk idx total)]) = (r, tr1) ->
    in_order key mdl transport total (idx + 1) todo tr1 results tr2 ->
    in_order key mdl transport total idx (chunk :: todo) tr (r :: results) tr2.

(** A response that makes [call_groq] return content. *)
Definition succeeds (r : Response) : bool :=
  match r with
  | Http status_code _ (Content _) => status_code =? 200
  | _ => false
  end.

(** What a chunk contributes to the filled text, given what [call_groq]
    returned for it. *)
Definition fill_output (r : option str * option str) : str :=
  or_fallback (fst r) FILL_FALLBACK.

(** Stub transports: one answers every request with status 500, one
    answers 200 with a given content on the second request only, one
    always answers 200 with a given content. *)
Definition always_500 (_ : nat) (_ : Request) : Response :=
  Http 500 (lit "oops") (BadBody []).

Definition second_try (c : str) (n : nat) (_ : Request) : Response :=
  if Nat.eqb n 1 then Http 200 [] (Content c)
  else Http 500 (lit "oops") (BadBody []).

Definition always_200 (c : str) (_ : nat) (_ : Request) : Response :=
  Http 200 [] (Content c).

(** Two header lines followed by 28 lines with a blank line before each. *)
Definition double_spaced_form : str :=
  lit "h" ++ [NL] ++ lit "h" ++ concat (repeat ([NL; NL] ++ lit "x") 28).

(** A response with a status other than 200. *)
Definition non_200 (r : Response) : bool :=
  match r with
  | Http status_code _ _ => negb (status_code =? 200)
  | Raised _ => false
  end.

(** The message shown after an attempt that did not return content. *)
Definition failure_report (r : Response) : Message :=
  match r with
  | Http status_code text (BadBody e) =>
      if status_code =? 200 then GroqException e
      else GroqError status_code text
  | Http status_code text (Content _) => GroqError status_code text
  | Raised e => GroqException e
  end.

(** The request [call_groq_chunk] sends for a chunk. *)
Definition fill_request (key mdl chunk : str) : Request :=
  request_for key mdl (fill_prompt chunk) (2 # 10) 1300.

(** The requests sent for the chunks, [ks] giving the number of attempts
    made for each. *)
Definition requests_of (key mdl : str) (todo : list str) (ks : list nat)
  : list Request :=
  concat (map (fun ck => repeat (fill_request key mdl (fst ck)) (snd ck))
              (combine todo ks)).

(** [\n+], the end of the second pattern of [clean_text]. *)
Definition NEWLINES : Re.pattern := [(is_nl, Re.Plus)].

(** The characters at which a match of [BLANKS], of [BLANK_LINES], stops. *)
Definition not_blank (c : char) : bool := negb (is_blank c).
Definition not_space (c : char) : bool := negb (isspace c).

(* ================================================================== *)
(** * The page script (the UI flow at the end of the file) *)
(* ================================================================== *)

(** What a run of the script puts on the page.  Streamlit runs the script
    from top to bottom at every interaction; the widgets return what the
    user did since the last run. *)
Inductive Widget :=
| Title                                  (* st.title *)
| KeyWarning                             (* st.warning: no key configured *)
| FileUploader (label : str)
| Subheader (title : str)
| TextArea (label value : str)
| Button (label : str) (disabled : bool)
| DownloadButton (label : str) (data : list CanvasOp) (file_name mime : str)
| Markdown (body : str)
| TextInput (label : str)
| QuestionShown (q : str)                (* st.markdown, the question *)
| AnswerShown (a : str).                 (* st.info, the answer *)

(** What the widgets return in a run: the uploaded file if there is one,
    whether the button was clicked, the text in the question box. *)
Record Inputs (pdf : Type) := {
  in_file : option pdf;
  in_click : bool;
  in_question : str
}.
Arguments in_file {pdf}.
Arguments in_click {pdf}.
Arguments in_question {pdf}.

(** The session after a run, the page it drew, and whether the script ran
    to its end ([false]: an exception ended it). *)
Record RunResult := {
  after : Session;
  page : list Widget;
  completed : bool
}.

(** The session state as the script initialises it. *)
Definition new_session : Session :=
  {| ocr_text := []; filled_text := []; qa_history := [] |}.

(** The question and answer pairs a page shows, from top to bottom. *)
Fixpoint shown_history (widgets : list Widget) : list (str * str) :=
  match widgets with
  | QuestionShown q :: AnswerShown a :: rest => (q, a) :: shown_history rest
  | _ :: rest => shown_history rest
  | [] => []
  end.

Section Page.

Variables (pdf image : Type).
Variable convert_from_bytes : pdf -> list image + str.
Variable image_to_string : image -> option str.
Variables GROQ_API_KEY GROQ_MODEL : str.
Variable transport : nat -> Request -> Response.

Definition page_top : list Widget :=
  [Title] ++ (if negb (truthy GROQ_API_KEY) then [KeyWarning] else [])
  ++ [FileUploader (lit "Upload scanned PDF form")].

(** [if st.button(..., disabled=not ocr_text): filled_text = ...]; a
    disabled button is never clicked. *)
Definition fill_step (click : bool) (s : Session) : M Session :=
  if click && truthy (ocr_text s) then
    t <- groq_fill_missing GROQ_API_KEY GROQ_MODEL transport (ocr_text s) ;;
    ret {| ocr_text := ocr_text s;
           filled_text := t;
           qa_history := qa_history s |}
  else ret s.

(** [if question: answer = ...; qa_history.append(...)] *)
Definition question_step (question : str) (s : Session) : M Session :=
  if truthy question then
    answer <- groq_answer_question GROQ_API_KEY GROQ_MODEL transport
                (filled_text s) question ;;
    ret {| ocr_text := ocr_text s;
           filled_text := filled_text s;
           qa_history := qa_history s ++ [(question, answer)] |}
  else ret s.

(** [for qa in reversed(qa_history)] under [if qa_history] *)
Definition history_widgets (history : list (str * str)) : list Widget :=
  match history with
  | [] => []
  | _ :: _ =>
      Subheader (lit "Q/A History")
      :: flat_map (fun qa => [QuestionShown (fst qa); AnswerShown (snd qa)])
                  (rev history)
  end.

Definition page_script (inp : Inputs pdf) (s : Session) : M RunResult :=
  match in_file inp with
  | None => ret {| after := s; page := page_top; completed := true |}
  | Some uploaded_file =>
      r <- upload_step pdf image convert_from_bytes image_to_string
             uploaded_file s ;;
      match r with
      | None => ret {| after := s; page := page_top; completed := false |}
      | Some s1 =>
          let widgets :=
            page_top
            ++ [Subheader (lit "OCR Extracted Text");
                TextArea (lit "OCR Text") (ocr_text s1);
                Button (lit "AI: Fill Missing Fields")
                       (negb (truthy (ocr_text s1)))] in
          s2 <- fill_step (in_click inp) s1 ;;
          if truthy (filled_text s2) then
            let widgets :=
              widgets
              ++ [Subheader (lit "AI-Filled Form Text");
                  TextArea (lit "Filled Text") (filled_text s2);
                  DownloadButton (lit "Download Clean Filled PDF")
                                 (generate_pdf (filled_text s2))
                                 (lit "AI_Filled_Form.pdf")
                                 (lit "application/pdf");
                  Markdown (lit "#### Ask questions about the filled form:");
                  TextInput (lit "Your question:")] in
            s3 <- question_step (in_question inp) s2 ;;
            ret {| after := s3;
                   page := widgets ++ history_widgets (qa_history s3);
                   completed := true |}
          else ret {| after := s2; page := widgets; completed := true |}
      end
  end.

(** The runs of a session, one per interaction. *)
Fixpoint session_runs (inputs : list (Inputs pdf)) (s : Session) : M Session :=
  match inputs with
  | [] => ret s
  | inp :: inputs' =>
      r <- page_script inp s ;;
      session_runs inputs' (after r)
  end.

(** The script with a file in the uploader, after the upload step gave the
    session [s1] on the trace [tr1]. *)
Definition rest_of_page (inp : Inputs pdf) (s1 : Session) (tr1 : Trace)
  : RunResult * Trace :=
  let s2 := fst (fill_step (in_click inp) s1 tr1) in
  let tr2 := snd (fill_step (in_click inp) s1 tr1) in
  let widgets :=
    page_top
    ++ [Subheader (lit "OCR Extracted Text");
        TextArea (lit "OCR Text") (ocr_text s1);
        Button (lit "AI: Fill Missing Fields") (negb (truthy (ocr_text s1)))] in
  if truthy (filled_text s2) then
    let s3 := fst (question_step (in_question inp) s2 tr2) in
    ({| after := s3;
        page := (widgets
                 ++ [Subheader (lit "AI-Filled Form Text");
                     TextArea (lit "Filled Text") (filled_text s2);
                     DownloadButton (lit "Download Clean Filled PDF")
                                    (generate_pdf (filled_text s2))
                                    (lit "AI_Filled_Form.pdf")
                                    (lit "application/pdf");
                     Markdown (lit "#### Ask questions about the filled form:");
                     TextInput (lit "Your question:")])
                ++ history_widgets (qa_history s3);
        completed := true |},
     snd (question_step (in_question inp) s2 tr2))
  else ({| after := s2; page := widgets; completed := true |}, tr2).

End Page.

(* ================================================================== *)
(** * Further specification-side notions *)
(* ================================================================== *)

(** The events of [k] failed attempts in a row, the first one being the
    request number [n0] of the session. *)
Definition failed_attempts (transport : nat -> Request -> Response)
    (req : Request) (n0 k : nat) : Trace :=
  flat_map (fun j => [Post req;
                      StError (failure_report (transport (n0 + j)%nat req));
                      Sleep 2])
           (seq 0 k).

(** The pieces of a text that [groq_fill_missing] sends for completion: the
    chunks of a text above the threshold, the whole text otherwise. *)
Definition fill_inputs (text : str) : list str :=
  if SPLIT_THRESHOLD <? len text then chunks text else [text].

(** What a chunk contributes to the filled text, given what the client
    returned for it: the content when there is one and it is not empty, the
    fallback string "AI filling failed." when the client returned no content
    or an empty one. *)
Definition contributes (r : option str * option str) (out : str) : Prop :=
  match fst r with
  | Some (c :: s) => out = c :: s
  | Some [] => out = FILL_FALLBACK
  | None => out = FILL_FALLBACK
  end.

(** A stub transport that answers 200 with a given content to the first
    request of the session and 500 to every later one. *)
Definition first_only (c : str) (n : nat) (_ : Request) : Response :=
  if Nat.eqb n 0 then Http 200 [] (Content c)
  else Http 500 (lit "oops") (BadBody []).

(** The heights of [k] lines drawn one below the other from [y] down. *)
Definition heights (y : Z) (k : nat) : list Z :=
  map (fun i => y - LINE_HEIGHT * Z.of_nat i) (seq 0 k).

(** A widget that shows a question of the history. *)
Definition is_question (w : Widget) : bool :=
  match w with QuestionShown _ => true | _ => false end.

(** Stub inputs: a transport whose requests all end in an exception, a
    rasteriser that hands out the page texts, one that fails, an OCR engine
    that reads a page unless it is [None]. *)
Definition always_raises (_ : nat) (_ : Request) : Response :=
  Raised (lit "timeout").

Definition pages_of (pages : list (option str)) : list (option str) + str :=
  inl pages.

Definition no_pages (_ : list (option str)) : list (option str) + str :=
  inr (lit "not a PDF").

Definition read_page (page_text : option str) : option str := page_text.

Definition two_pages : list (option str) := [Some (lit " a  b "); Some (lit "c")].

Definition torn_pages : list (option str) := [Some (lit "a"); None].

Definition filled_session : Session :=
  {| ocr_text := lit "Name: N/A";
     filled_text := lit "Name: Ann";
     qa_history := [(lit "Who?", lit "Ann")] |}.

(* ================================================================== *)
(** * Basic facts on slices and ranges *)
(* ================================================================== *)

Lemma len_nonneg {A} (s : list A) : 0 <= len s.
Proof. unfold len; lia. Qed.

Lemma len_app {A} (s t : list A) : len (s ++ t) = len s + len t.
Proof. unfold len; rewrite length_app; lia. Qed.

Lemma slice_firstn_skipn {A} (s : list A) (i j : Z) :
  0 <= i <= j ->
  slice s i j = firstn (Z.to_nat (j - i)) (skipn (Z.to_nat i) s).
Proof.
  intros Hij. unfold slice, clamp, len.
  destruct (Z.ltb_spec i 0); [lia|].
  destruct (Z.ltb_spec j 0); [lia|].
  destruct (Z.le_gt_cases i (Z.of_nat (length s))) as [Hi|Hi].
  - rewrite (Z.min_l i) by lia.
    destruct (Z.le_gt_cases j (Z.of_nat (length s))) as [Hj|Hj].
    + rewrite (Z.min_l j) by lia. reflexivity.
    + rewrite (Z.min_r j) by lia.
      rewrite !firstn_all2; try reflexivity; rewrite length_skipn; lia.
  - rewrite !skipn_all2 by lia. now rewrite !firstn_nil.
Qed.

Lemma ceil_div_spec (a b : Z) :
  0 < b -> b * (ceil_div a b - 1) < a <= b * ceil_div a b.
Proof.
  intros Hb. unfold ceil_div.
  pose proof (Z.div_mod (- a) b ltac:(lia)) as Hdm.
  pose proof (Z.mod_pos_bound (- a) b Hb) as Hm.
  nia.
Qed.

Lemma ceil_div_unique (a b k : Z) :
  0 < b -> b * (k - 1) < a <= b * k -> k = ceil_div a b.
Proof.
  intros Hb Hk. pose proof (ceil_div_spec a b Hb) as Hc. nia.
Qed.

Section Chunking.

Variable n : Z.
Hypothesis n_pos : 0 < n.
Variable text : str.

Let piece (i : Z) : str := slice text i (i + n).

Lemma range_from_done (fuel : nat) (i stop : Z) :
  stop <= i -> range_from fuel i stop n = [].
Proof.
  intros Hi. destruct fuel; simpl; [reflexivity|].
  destruct (Z.ltb_spec i stop); [lia | reflexivity].
Qed.

Lemma concat_pieces (fuel : nat) (i : Z) :
  0 <= i -> len text - i <= Z.of_nat fuel ->
  concat (map piece (range_from fuel i (len text) n))
  = skipn (Z.to_nat i) text.
Proof.
  revert i. induction fuel as [|fuel IH]; intros i Hi Hfuel.
  - simpl. rewrite skipn_all2; [reflexivity | unfold len in *; lia].
  - simpl. destruct (Z.ltb_spec i (len text)) as [Hlt|Hge].
    + simpl. rewrite IH by lia.
      unfold piece. rewrite slice_firstn_skipn by lia.
      replace (Z.to_nat (i + n)) with (Z.to_nat (i + n - i) + Z.to_nat i)%nat
        by lia.
      rewrite <- skipn_skipn. apply firstn_skipn.
    + simpl. rewrite skipn_all2; [reflexivity | unfold len in *; lia].
Qed.

Lemma pieces_bounded (fuel : nat) (i : Z) :
  0 <= i ->
  Forall (fun c => len c <= n) (map piece (range_from fuel i (len text) n)).
Proof.
  revert i. induction fuel as [|fuel IH]; intros i Hi; simpl.
  - constructor.
  - destruct (Z.ltb_spec i (len text)); simpl; constructor.
    + unfold piece. rewrite slice_firstn_skipn by lia.
      unfold len. rewrite length_firstn. lia.
    + apply IH. lia.
Qed.

Lemma range_from_count (fuel : nat) (i stop : Z) :
  i <= stop -> stop - i <= Z.of_nat fuel ->
  len (range_from fuel i stop n) = ceil_div (stop - i) n.
Proof.
  revert i. induction fuel as [|fuel IH]; intros i Hi Hfuel.
  - simpl. apply ceil_div_unique; unfold len; simpl; lia.
  - simpl. destruct (Z.ltb_spec i stop) as [Hlt|Hge].
    + destruct (Z.le_gt_cases (i + n) stop) as [Hnext|Hnext].
      * change (len (i :: ?l)) with (Z.of_nat (S (length l))).
        rewrite Nat2Z.inj_succ. fold (len (range_from fuel (i + n) stop n)).
        rewrite IH by lia.
        pose proof (ceil_div_spec (stop - (i + n)) n n_pos).
        apply ceil_div_unique; [assumption | nia].
      * rewrite range_from_done by lia.
        apply ceil_div_unique; unfold len; simpl; lia.
    + apply ceil_div_unique; unfold len; simpl; lia.
Qed.

Lemma chunks_of_concat : concat (chunks_of n text) = text.
Proof.
  unfold chunks_of, range. fold piece.
  rewrite concat_pieces; [reflexivity | lia | ].
  pose proof (len_nonneg text). lia.
Qed.

Lemma chunks_of_bounded : Forall (fun c => len c <= n) (chunks_of n text).
Proof. unfold chunks_of, range. apply pieces_bounded. lia. Qed.

Lemma chunks_of_count : len (chunks_of n text) = ceil_div (len text) n.
Proof.
  unfold chunks_of, range, len at 1. rewrite length_map.
  fold (len (range_from (Z.to_nat (len text - 0)) 0 (len text) n)).
  pose proof (len_nonneg text).
  rewrite range_from_count by lia. f_equal. lia.
Qed.

End Chunking.

(** C1.  For every text, the chunks built by [groq_fill_missing] (chunk size
    4000) partition it: concatenated in order they give the text back, none
    is longer than 4000 characters, and their number is
    ceil(len(text) / 4000). *)
Theorem chunks_partition_text (text : str) :
  concat (chunks text) = text
  /\ Forall (fun c => len c <= CHUNK_SIZE) (chunks text)
  /\ len (chunks text) = ceil_div (len text) CHUNK_SIZE.
Proof.
  assert (Hpos : 0 < CHUNK_SIZE) by reflexivity.
  unfold chunks. split; [|split].
  - now apply chunks_of_concat.
  - now apply chunks_of_bounded.
  - now apply chunks_of_count.
Qed.

(* ================================================================== *)
(** * Substitution of a pattern *)
(* ================================================================== *)

Lemma sub_from_enough (p : Re.pattern) (repl : str) (f1 : nat) :
  forall (f2 : nat) (s : str),
    (length s < f1)%nat -> (length s < f2)%nat ->
    Re.sub_from f1 p repl s = Re.sub_from f2 p repl s.
Proof.
  induction f1 as [|f1 IH]; intros f2 s H1 H2; [lia|].
  destruct f2 as [|f2]; [lia|].
  cbn [Re.sub_from].
  assert (Hcopy : match s with
                  | [] => []
                  | x :: s' => x :: Re.sub_from f1 p repl s'
                  end
                  = match s with
                    | [] => []
                    | x :: s' => x :: Re.sub_from f2 p repl s'
                    end).
  { destruct s as [|x s']; [reflexivity|]. simpl in H1, H2.
    f_equal. apply IH; lia. }
  rewrite Hcopy. destruct (Re.match_here p s) as [rest|]; [|reflexivity].
  destruct (Nat.ltb_spec (length rest) (length s)); [|reflexivity].
  f_equal. apply IH; lia.
Qed.

Lemma sub_from_S (fuel : nat) (p : Re.pattern) (repl s : str) :
  Re.sub_from (S fuel) p repl s
  = match Re.match_here p s with
    | Some rest =>
        if (length rest <? length s)%nat
        then repl ++ Re.sub_from fuel p repl rest
        else repl ++ match s with
                     | [] => []
                     | x :: s' => x :: Re.sub_from fuel p repl s'
                     end
    | None => match s with
              | [] => []
              | x :: s' => x :: Re.sub_from fuel p repl s'
              end
    end.
Proof. reflexivity. Qed.

Lemma sub_nil_nomatch (p : Re.pattern) (repl : str) :
  Re.match_here p [] = None -> Re.sub p repl [] = [].
Proof. intros H. unfold Re.sub. now rewrite sub_from_S, H. Qed.

Lemma sub_nomatch (p : Re.pattern) (repl : str) (x : char) (s : str) :
  Re.match_here p (x :: s) = None ->
  Re.sub p repl (x :: s) = x :: Re.sub p repl s.
Proof. intros H. unfold Re.sub. now rewrite sub_from_S, H. Qed.

Lemma sub_match (p : Re.pattern) (repl s rest : str) :
  Re.match_here p s = Some rest -> (length rest < length s)%nat ->
  Re.sub p repl s = repl ++ Re.sub p repl rest.
Proof.
  intros H Hlt. unfold Re.sub. rewrite sub_from_S, H.
  destruct (Nat.ltb_spec (length rest) (length s)); [|lia].
  f_equal. apply sub_from_enough; lia.
Qed.

(** A character that belongs to no class of the pattern stops every match:
    matching before it does not depend on what follows. *)
Lemma star_barrier (cls : char -> bool) (k : str -> option str)
    (c : char) (b : str) :
  cls c = false ->
  (forall a, k (a ++ c :: b) = option_map (fun r => r ++ c :: b) (k a)) ->
  forall a,
    Re.star cls k (a ++ c :: b)
    = option_map (fun r => r ++ c :: b) (Re.star cls k a).
Proof.
  intros Hc Hk a. induction a as [|x a IH]; simpl.
  - rewrite Hc. apply (Hk []).
  - destruct (cls x).
    + rewrite IH. destruct (Re.star cls k a); simpl; [reflexivity|].
      apply (Hk (x :: a)).
    + apply (Hk (x :: a)).
Qed.

Lemma match_here_barrier (p : Re.pattern) (c : char) (b : str) :
  Forall (fun it => fst it c = false) p ->
  forall a,
    Re.match_here p (a ++ c :: b)
    = option_map (fun r => r ++ c :: b) (Re.match_here p a).
Proof.
  induction p as [|[cls q] p IH]; intros Hp a.
  - reflexivity.
  - inversion Hp as [|? ? Hc Hp']; subst. simpl in Hc.
    destruct q; cbn [Re.match_here].
    + destruct a as [|x a]; simpl.
      * now rewrite Hc.
      * destruct (cls x); [now apply IH | reflexivity].
    + apply star_barrier; [assumption | now apply IH].
    + destruct a as [|x a]; simpl.
      * now rewrite Hc.
      * destruct (cls x); [|reflexivity].
        apply star_barrier; [assumption | now apply IH].
Qed.

Lemma app_eq_length {A} (a a' b b' : list A) :
  a ++ b = a' ++ b' -> length a = length a' -> a = a' /\ b = b'.
Proof.
  revert a'. induction a as [|x a IH]; intros [|x' a'] H Hl;
    simpl in *; try discriminate.
  - now split.
  - injection H as -> H. destruct (IH a' H) as [-> ->]; [lia | now split].
Qed.

Section Substitution.

Variable p : Re.pattern.
Variable repl : str.

(** Every match is non-empty and at least as long as the replacement. *)
Hypothesis consumes : forall s rest,
    Re.match_here p s = Some rest ->
    (length rest < length s /\ length rest + length repl <= length s)%nat.

Lemma no_match_nil : Re.match_here p [] = None.
Proof.
  destruct (Re.match_here p []) as [rest|] eqn:H; [|reflexivity].
  apply consumes in H. simpl in H. lia.
Qed.

Lemma sub_nil : Re.sub p repl [] = [].
Proof. apply sub_nil_nomatch, no_match_nil. Qed.

Lemma sub_length (s : str) : (length (Re.sub p repl s) <= length s)%nat.
Proof.
  enough (H : forall n t, (length t <= n)%nat ->
                          (length (Re.sub p repl t) <= length t)%nat)
    by (apply (H (length s)); lia).
  clear s. induction n as [|n IH]; intros s Hle.
  - destruct s; [|simpl in Hle; lia]. rewrite sub_nil. simpl. lia.
  - destruct s as [|x s]; [rewrite sub_nil; simpl; lia|].
    destruct (Re.match_here p (x :: s)) as [rest|] eqn:Hm.
    + destruct (consumes _ _ Hm) as [Hlt Hrepl].
      rewrite (sub_match _ _ _ _ Hm Hlt), length_app.
      simpl in Hle, Hlt.
      pose proof (IH rest ltac:(lia)). lia.
    + rewrite (sub_nomatch _ _ _ _ Hm). simpl in *.
      pose proof (IH s ltac:(lia)). lia.
Qed.

(** The characters that stop a match. *)
Variable bar : char -> bool.
Hypothesis bar_stops : forall c,
    bar c = true -> Forall (fun it => fst it c = false) p.

Lemma no_match_at_barrier (c : char) (b : str) :
  bar c = true -> Re.match_here p (c :: b) = None.
Proof.
  intros Hc.
  pose proof (match_here_barrier p c b (bar_stops c Hc) []) as Hm.
  simpl in Hm. now rewrite no_match_nil in Hm.
Qed.

Lemma sub_barrier (a : str) (c : char) (b : str) :
  bar c = true ->
  Re.sub p repl (a ++ c :: b) = Re.sub p repl a ++ c :: Re.sub p repl b.
Proof.
  intros Hc.
  remember (length a) as n eqn:Hn.
  assert (Hle : (length a <= n)%nat) by lia. clear Hn.
  revert a Hle. induction n as [|n IH]; intros a Hle.
  - destruct a; [|simpl in Hle; lia]. rewrite sub_nil. simpl.
    now apply sub_nomatch, no_match_at_barrier.
  - destruct a as [|x a].
    + rewrite sub_nil. simpl. now apply sub_nomatch, no_match_at_barrier.
    + pose proof (match_here_barrier p c b (bar_stops c Hc) (x :: a)) as Hm.
      destruct (Re.match_here p (x :: a)) as [rest|] eqn:Hma; simpl in Hm.
      * destruct (consumes _ _ Hma) as [Hlt _].
        rewrite (sub_match _ _ _ _ Hm), (sub_match _ _ _ _ Hma Hlt).
        -- simpl in Hle, Hlt. rewrite IH by lia. now rewrite app_assoc.
        -- simpl in *. rewrite !length_app. simpl. lia.
      * change ((x :: a) ++ c :: b) with (x :: (a ++ c :: b)) in *.
        rewrite (sub_nomatch _ _ _ _ Hm), (sub_nomatch _ _ _ _ Hma).
        simpl in Hle. rewrite IH by lia. reflexivity.
Qed.

Lemma fixed_split (a : str) (c : char) (b : str) :
  bar c = true ->
  Re.sub p repl (a ++ c :: b) = a ++ c :: b ->
  Re.sub p repl a = a /\ Re.sub p repl b = b.
Proof.
  intros Hc H. rewrite sub_barrier in H by assumption.
  pose proof (sub_length a) as Ha. pose proof (sub_length b) as Hb.
  assert (Hlen : length (Re.sub p repl a ++ c :: Re.sub p repl b)
                 = length (a ++ c :: b)) by now rewrite H.
  rewrite !length_app in Hlen. simpl in Hlen.
  apply app_eq_length in H; [|lia].
  destruct H as [-> H]. injection H as ->. now split.
Qed.

Lemma fixed_join (a : str) (c : char) (b : str) :
  bar c = true ->
  Re.sub p repl a = a -> Re.sub p repl b = b ->
  Re.sub p repl (a ++ c :: b) = a ++ c :: b.
Proof. intros Hc Ha Hb. rewrite sub_barrier by assumption. now rewrite Ha, Hb. Qed.

(** A string is a run of characters that do not stop a match, or such a
    run, a stopping character and a string. *)
Lemma block_ind (P : str -> Prop) :
  (forall w, Forall (fun x => bar x = false) w -> P w) ->
  (forall w c b, Forall (fun x => bar x = false) w -> bar c = true ->
                 P b -> P (w ++ c :: b)) ->
  forall s, P s.
Proof.
  intros Hrun Hblock s.
  enough (H : forall w, Forall (fun x => bar x = false) w -> P (w ++ s))
    by (apply (H []); constructor).
  induction s as [|x s IH]; intros w Hw.
  - rewrite app_nil_r. now apply Hrun.
  - destruct (bar x) eqn:Hx.
    + apply Hblock; [assumption | assumption | apply (IH []); constructor].
    + replace (w ++ x :: s) with ((w ++ [x]) ++ s)
        by (now rewrite <- app_assoc).
      apply IH. apply Forall_app. split; [assumption | now repeat constructor].
Qed.

Lemma sub_idempotent_by_runs :
  (forall w, Forall (fun x => bar x = false) w ->
             Re.sub p repl (Re.sub p repl w) = Re.sub p repl w) ->
  forall s, Re.sub p repl (Re.sub p repl s) = Re.sub p repl s.
Proof.
  intros Hrun. apply block_ind; [exact Hrun|].
  intros w c b Hw Hc IH. rewrite sub_barrier by assumption.
  rewrite sub_barrier by assumption. now rewrite (Hrun w Hw), IH.
Qed.

End Substitution.

(* ================================================================== *)
(** * The two patterns of clean_text *)
(* ================================================================== *)

Lemma is_nl_eq (c : char) : is_nl c = true -> c = NL.
Proof. unfold is_nl. now intros H%N.eqb_eq. Qed.

Lemma is_nl_isspace (c : char) : is_nl c = true -> isspace c = true.
Proof. now intros ->%is_nl_eq. Qed.

Lemma is_blank_isspace (c : char) : is_blank c = true -> isspace c = true.
Proof.
  unfold is_blank. intros [->%N.eqb_eq | ->%N.eqb_eq]%orb_true_iff; reflexivity.
Qed.

Lemma is_blank_nl : is_blank NL = false.
Proof. reflexivity. Qed.

Lemma star_length (cls : char -> bool) (k : str -> option str) (m : nat) :
  (forall s r, k s = Some r -> (length r + m <= length s)%nat) ->
  forall s r, Re.star cls k s = Some r -> (length r + m <= length s)%nat.
Proof.
  intros Hk s. induction s as [|x s IH]; intros r H; simpl in H.
  - now apply Hk in H.
  - destruct (cls x); [|now apply Hk in H].
    destruct (Re.star cls k s) as [r'|] eqn:Hs.
    + injection H as <-. specialize (IH r' eq_refl). simpl. lia.
    + now apply Hk in H.
Qed.

Lemma star_all (cls : char -> bool) (s : str) :
  Forall (fun x => cls x = true) s -> Re.star cls Some s = Some [].
Proof.
  induction 1 as [|x s Hx _ IH]; simpl; [reflexivity|]. now rewrite Hx, IH.
Qed.

Lemma blanks_consumes (s rest : str) :
  Re.match_here BLANKS s = Some rest ->
  (length rest < length s /\ length rest + length [SPACE] <= length s)%nat.
Proof.
  unfold BLANKS. cbn [Re.match_here]. destruct s as [|x s]; [discriminate|].
  destruct (is_blank x); [|discriminate]. intros H.
  apply (star_length is_blank Some 0) in H.
  - simpl. lia.
  - intros s' r [= ->]. lia.
Qed.

Lemma newlines_consumes (s rest : str) :
  Re.match_here NEWLINES s = Some rest -> (length rest + 1 <= length s)%nat.
Proof.
  unfold NEWLINES. cbn [Re.match_here]. destruct s as [|x s]; [discriminate|].
  destruct (is_nl x); [|discriminate]. intros H.
  apply (star_length is_nl Some 0) in H.
  - simpl. lia.
  - intros s' r [= ->]. lia.
Qed.

Lemma blank_lines_unfold (x : char) (s : str) :
  Re.match_here BLANK_LINES (x :: s)
  = if is_nl x then Re.star isspace (Re.match_here NEWLINES) s else None.
Proof. reflexivity. Qed.

Lemma blank_lines_consumes (s rest : str) :
  Re.match_here BLANK_LINES s = Some rest ->
  (length rest < length s /\ length rest + length [NL; NL] <= length s)%nat.
Proof.
  destruct s as [|x s]; [discriminate|]. rewrite blank_lines_unfold.
  destruct (is_nl x); [|discriminate]. intros H.
  apply (star_length isspace _ 1 newlines_consumes) in H. simpl. lia.
Qed.

Lemma not_blank_stops (c : char) :
  not_blank c = true -> Forall (fun it => fst it c = false) BLANKS.
Proof.
  unfold not_blank. intros H%negb_true_iff. now repeat constructor.
Qed.

Lemma not_space_stops (c : char) :
  not_space c = true -> Forall (fun it => fst it c = false) BLANK_LINES.
Proof.
  unfold not_space. intros H%negb_true_iff.
  assert (Hnl : is_nl c = false).
  { destruct (is_nl c) eqn:E; [|reflexivity].
    apply is_nl_isspace in E. congruence. }
  now repeat constructor.
Qed.

Lemma not_space_not_blank (c : char) : not_space c = true -> not_blank c = true.
Proof.
  unfold not_space, not_blank. intros H%negb_true_iff. apply negb_true_iff.
  destruct (is_blank c) eqn:E; [|reflexivity].
  apply is_blank_isspace in E. congruence.
Qed.

(** ** [[ \t]+] *)

Lemma sub_blanks_run (w : str) :
  Forall (fun x => not_blank x = false) w ->
  Re.sub BLANKS [SPACE] w = match w with [] => [] | _ :: _ => [SPACE] end.
Proof.
  intros Hw. destruct w as [|x w].
  - apply (sub_nil _ _ blanks_consumes).
  - inversion Hw as [|? ? Hx Hw']; subst.
    apply negb_false_iff in Hx.
    assert (Hm : Re.match_here BLANKS (x :: w) = Some []).
    { unfold BLANKS. cbn [Re.match_here]. rewrite Hx. apply star_all.
      eapply Forall_impl; [|exact Hw']. intros a Ha. now apply negb_false_iff. }
    rewrite (sub_match _ _ _ _ Hm) by (simpl; lia).
    now rewrite (sub_nil _ _ blanks_consumes).
Qed.

Lemma sub_blanks_idempotent (s : str) :
  Re.sub BLANKS [SPACE] (Re.sub BLANKS [SPACE] s) = Re.sub BLANKS [SPACE] s.
Proof.
  apply (sub_idempotent_by_runs _ _ blanks_consumes not_blank not_blank_stops).
  intros w Hw. rewrite (sub_blanks_run w Hw). now destruct w.
Qed.

(** ** [\n\s*\n+] *)

Lemma split_first {A} (f : A -> bool) (l : list A) :
  Forall (fun x => f x = false) l
  \/ exists pre x rest,
       l = pre ++ x :: rest /\ Forall (fun x => f x = false) pre /\ f x = true.
Proof.
  induction l as [|y l IH]; [left; constructor|].
  destruct (f y) eqn:Hy.
  - right. exists [], y, l. repeat split; [constructor | assumption].
  - destruct IH as [IH | (pre & x & rest & -> & Hpre & Hx)].
    + left. now constructor.
    + right. exists (y :: pre), x, rest. repeat split; [now constructor | assumption].
Qed.

Lemma split_last {A} (f : A -> bool) (l : list A) :
  Forall (fun x => f x = false) l
  \/ exists mid x suf,
       l = mid ++ x :: suf /\ f x = true /\ Forall (fun x => f x = false) suf.
Proof.
  induction l as [|y l IH]; [left; constructor|].
  destruct IH as [IH | (mid & x & suf & -> & Hx & Hsuf)].
  - destruct (f y) eqn:Hy.
    + right. exists [], y, l. now repeat split.
    + left. now constructor.
  - right. exists (y :: mid), x, suf. now repeat split.
Qed.

Lemma sub_blank_lines_no_nl (pre s : str) :
  Forall (fun x => is_nl x = false) pre ->
  Re.sub BLANK_LINES [NL; NL] (pre ++ s) = pre ++ Re.sub BLANK_LINES [NL; NL] s.
Proof.
  induction 1 as [|x pre Hx _ IH]; [reflexivity|].
  simpl. rewrite sub_nomatch; [now rewrite IH|].
  rewrite blank_lines_unfold. now rewrite Hx.
Qed.

Lemma sub_blank_lines_id (s : str) :
  Forall (fun x => is_nl x = false) s -> Re.sub BLANK_LINES [NL; NL] s = s.
Proof.
  intros H. rewrite <- (app_nil_r s) at 1.
  rewrite (sub_blank_lines_no_nl s [] H).
  now rewrite (sub_nil _ _ blank_lines_consumes), app_nil_r.
Qed.

Lemma newlines_unfold (x : char) (s : str) :
  Re.match_here NEWLINES (x :: s)
  = if is_nl x then Re.star is_nl Some s else None.
Proof. reflexivity. Qed.

Lemma star_some_no_nl (s : str) :
  Forall (fun x => is_nl x = false) s -> Re.star is_nl Some s = Some s.
Proof. intros H. destruct H as [|x s Hx _]; cbn [Re.star]; [|rewrite Hx]; reflexivity. Qed.

Lemma star_newlines_none (s : str) :
  Forall (fun x => is_nl x = false) s ->
  Re.star isspace (Re.match_here NEWLINES) s = None.
Proof.
  induction 1 as [|x s Hx _ IH]; cbn [Re.star]; [reflexivity|].
  rewrite IH, newlines_unfold, Hx. now destruct (isspace x).
Qed.

Lemma star_newlines_last (mid suf : str) :
  Forall (fun x => isspace x = true) mid ->
  Forall (fun x => is_nl x = false) suf ->
  Re.star isspace (Re.match_here NEWLINES) (mid ++ NL :: suf) = Some suf.
Proof.
  intros Hmid Hsuf. induction Hmid as [|x mid Hx _ IH].
  - cbn [app Re.star]. change (isspace NL) with true. cbv iota.
    rewrite (star_newlines_none suf Hsuf), newlines_unfold.
    change (is_nl NL) with true. cbv iota. now apply star_some_no_nl.
  - cbn [app Re.star]. now rewrite Hx, IH.
Qed.

(** On a run of whitespace the substitution changes nothing, or it keeps
    what is before the first newline and after the last one, with two
    newlines between them. *)
Lemma sub_blank_lines_run (w : str) :
  Forall (fun x => not_space x = false) w ->
  Re.sub BLANK_LINES [NL; NL] w = w
  \/ exists pre mid suf,
       w = pre ++ NL :: mid ++ NL :: suf
       /\ Forall (fun x => is_nl x = false) pre
       /\ Forall (fun x => is_nl x = false) suf
       /\ Re.sub BLANK_LINES [NL; NL] w = pre ++ NL :: NL :: suf.
Proof.
  intros Hw.
  destruct (split_first is_nl w) as [Hnone | (pre & x & rest & -> & Hpre & Hx)].
  { left. now apply sub_blank_lines_id. }
  apply is_nl_eq in Hx. subst x.
  apply Forall_app in Hw. destruct Hw as [_ Hw].
  inversion Hw as [|? ? _ Hrest]; subst.
  destruct (split_last is_nl rest) as [Hnone | (mid & x & suf & -> & Hx & Hsuf)].
  - left. rewrite (sub_blank_lines_no_nl pre _ Hpre). f_equal.
    rewrite sub_nomatch; [now rewrite sub_blank_lines_id|].
    rewrite blank_lines_unfold. simpl. now apply star_newlines_none.
  - apply is_nl_eq in Hx. subst x.
    right. exists pre, mid, suf. repeat split; try assumption.
    rewrite (sub_blank_lines_no_nl pre _ Hpre). f_equal.
    apply Forall_app in Hrest. destruct Hrest as [Hmid _].
    assert (Hm : Re.match_here BLANK_LINES (NL :: mid ++ NL :: suf) = Some suf).
    { rewrite blank_lines_unfold. simpl. apply star_newlines_last; [|assumption].
      eapply Forall_impl; [|exact Hmid]. intros a Ha. now apply negb_false_iff. }
    rewrite (sub_match _ _ _ _ Hm).
    + now rewrite sub_blank_lines_id.
    + simpl. rewrite length_app. simpl. lia.
Qed.

Lemma sub_blank_lines_two (pre suf : str) :
  Forall (fun x => is_nl x = false) pre ->
  Forall (fun x => is_nl x = false) suf ->
  Re.sub BLANK_LINES [NL; NL] (pre ++ NL :: NL :: suf) = pre ++ NL :: NL :: suf.
Proof.
  intros Hpre Hsuf. rewrite (sub_blank_lines_no_nl pre _ Hpre). f_equal.
  assert (Hm : Re.match_here BLANK_LINES (NL :: NL :: suf) = Some suf).
  { rewrite blank_lines_unfold. simpl is_nl. cbv iota.
    apply (star_newlines_last [] suf); [constructor | assumption]. }
  rewrite (sub_match _ _ _ _ Hm) by (simpl; lia).
  now rewrite sub_blank_lines_id.
Qed.

Lemma sub_blank_lines_idempotent (s : str) :
  Re.sub BLANK_LINES [NL; NL] (Re.sub BLANK_LINES [NL; NL] s)
  = Re.sub BLANK_LINES [NL; NL] s.
Proof.
  apply (sub_idempotent_by_runs _ _ blank_lines_consumes not_space
           not_space_stops).
  intros w Hw.
  destruct (sub_blank_lines_run w Hw)
    as [Hid | (pre & mid & suf & _ & Hpre & Hsuf & Heq)].
  - now rewrite Hid.
  - rewrite Heq. now apply sub_blank_lines_two.
Qed.

Lemma sub_blank_lines_run_keeps_blanks (w : str) :
  Forall (fun x => not_space x = false) w ->
  Re.sub BLANKS [SPACE] w = w ->
  Re.sub BLANKS [SPACE] (Re.sub BLANK_LINES [NL; NL] w)
  = Re.sub BLANK_LINES [NL; NL] w.
Proof.
  intros Hw Hfix.
  destruct (sub_blank_lines_run w Hw)
    as [Hid | (pre & mid & suf & -> & Hpre & Hsuf & Heq)].
  - now rewrite Hid.
  - rewrite Heq.
    apply (fixed_split _ _ blanks_consumes not_blank not_blank_stops)
      in Hfix; [|reflexivity].
    destruct Hfix as [Hfpre Hfrest].
    apply (fixed_split _ _ blanks_consumes not_blank not_blank_stops)
      in Hfrest; [|reflexivity].
    destruct Hfrest as [_ Hfsuf].
    apply (fixed_join _ _ blanks_consumes not_blank not_blank_stops);
      [reflexivity | assumption |].
    apply (fixed_join _ _ blanks_consumes not_blank not_blank_stops [] NL suf);
      [reflexivity | apply (sub_nil _ _ blanks_consumes) | assumption].
Qed.

(** The second substitution makes no new run of blanks. *)
Lemma sub_blank_lines_keeps_blanks (s : str) :
  Re.sub BLANKS [SPACE] s = s ->
  Re.sub BLANKS [SPACE] (Re.sub BLANK_LINES [NL; NL] s)
  = Re.sub BLANK_LINES [NL; NL] s.
Proof.
  pattern s. apply (block_ind not_space); clear s.
  - exact sub_blank_lines_run_keeps_blanks.
  - intros w c b Hw Hc IH Hfix.
    pose proof (not_space_not_blank c Hc) as Hc'.
    apply (fixed_split _ _ blanks_consumes not_blank not_blank_stops)
      in Hfix; [|assumption].
    destruct Hfix as [Hfw Hfb].
    rewrite (sub_barrier _ _ blank_lines_consumes not_space not_space_stops)
      by assumption.
    apply (fixed_join _ _ blanks_consumes not_blank not_blank_stops);
      [assumption | now apply sub_blank_lines_run_keeps_blanks | now apply IH].
Qed.

(* ================================================================== *)
(** * strip *)
(* ================================================================== *)

Lemma lstrip_spec (s : str) :
  exists w, s = w ++ lstrip s /\ Forall (fun x => isspace x = true) w.
Proof.
  induction s as [|x s (w & Hs & Hw)]; [now exists []|].
  simpl. destruct (isspace x) eqn:Hx.
  - exists (x :: w). split; [simpl; now f_equal | now constructor].
  - now exists [].
Qed.

Lemma lstrip_head (s : str) (c : char) (r : str) :
  lstrip s = c :: r -> isspace c = false.
Proof.
  induction s as [|x s IH]; simpl; [discriminate|].
  destruct (isspace x) eqn:Hx; [exact IH|]. now intros [= <- _].
Qed.

Lemma lstrip_stripped (c : char) (r : str) :
  isspace c = false -> lstrip (c :: r) = c :: r.
Proof. intros H. simpl. now rewrite H. Qed.

Lemma lstrip_idempotent (s : str) : lstrip (lstrip s) = lstrip s.
Proof.
  destruct (lstrip s) as [|c r] eqn:E; [reflexivity|].
  apply lstrip_stripped. eapply lstrip_head, E.
Qed.

Lemma lstrip_snoc (a : str) (c : char) :
  isspace c = false -> lstrip (a ++ [c]) = lstrip a ++ [c].
Proof.
  intros Hc. induction a as [|x a IH]; simpl; [now rewrite Hc|].
  now destruct (isspace x).
Qed.

Lemma rstrip_idempotent (s : str) : rstrip (rstrip s) = rstrip s.
Proof. unfold rstrip. now rewrite rev_involutive, lstrip_idempotent. Qed.

Lemma rstrip_cons (c : char) (r : str) :
  isspace c = false -> rstrip (c :: r) = c :: rstrip r.
Proof.
  intros Hc. unfold rstrip. simpl rev. rewrite lstrip_snoc by assumption.
  now rewrite rev_app_distr.
Qed.

Lemma strip_idempotent (s : str) : strip (strip s) = strip s.
Proof.
  unfold strip.
  assert (H : lstrip (rstrip (lstrip s)) = rstrip (lstrip s)).
  { destruct (lstrip s) as [|c r] eqn:E; [reflexivity|].
    pose proof (lstrip_head s c r E) as Hc.
    rewrite rstrip_cons by assumption. now apply lstrip_stripped. }
  now rewrite H, rstrip_idempotent.
Qed.

Section StripFixed.

Variable p : Re.pattern.
Variable repl : str.

Hypothesis consumes : forall s rest,
    Re.match_here p s = Some rest ->
    (length rest < length s /\ length rest + length repl <= length s)%nat.

(** The pattern matches whitespace only. *)
Hypothesis space_only : forall c,
    not_space c = true -> Forall (fun it => fst it c = false) p.

Lemma not_space_head (s : str) (c : char) (r : str) :
  lstrip s = c :: r -> not_space c = true.
Proof. intros H%lstrip_head. unfold not_space. now rewrite H. Qed.

Lemma fixed_lstrip (s : str) :
  Re.sub p repl s = s -> Re.sub p repl (lstrip s) = lstrip s.
Proof.
  intros Hfix. destruct (lstrip_spec s) as (w & Hs & _).
  destruct (lstrip s) as [|c r] eqn:E.
  - apply (sub_nil _ _ consumes).
  - pose proof (not_space_head s c r E) as Hc.
    rewrite Hs in Hfix.
    apply (fixed_split _ _ consumes not_space space_only) in Hfix;
      [|assumption].
    apply (fixed_join _ _ consumes not_space space_only [] c r);
      [assumption | apply (sub_nil _ _ consumes) | apply Hfix].
Qed.

Lemma fixed_rstrip (s : str) :
  Re.sub p repl s = s -> Re.sub p repl (rstrip s) = rstrip s.
Proof.
  intros Hfix. unfold rstrip.
  destruct (lstrip_spec (rev s)) as (w & Hs & _).
  destruct (lstrip (rev s)) as [|c r] eqn:E.
  - apply (sub_nil _ _ consumes).
  - pose proof (not_space_head (rev s) c r E) as Hc.
    assert (Hs' : s = rev r ++ c :: rev w).
    { rewrite <- (rev_involutive s), Hs, rev_app_distr. simpl.
      now rewrite <- app_assoc. }
    rewrite Hs' in Hfix.
    apply (fixed_split _ _ consumes not_space space_only) in Hfix;
      [|assumption].
    simpl rev.
    apply (fixed_join _ _ consumes not_space space_only (rev r) c []);
      [assumption | apply Hfix | apply (sub_nil _ _ consumes)].
Qed.

Lemma fixed_strip (s : str) :
  Re.sub p repl s = s -> Re.sub p repl (strip s) = strip s.
Proof. intros H. unfold strip. now apply fixed_rstrip, fixed_lstrip. Qed.

End StripFixed.

Lemma not_space_stops_blanks (c : char) :
  not_space c = true -> Forall (fun it => fst it c = false) BLANKS.
Proof. intros H. now apply not_blank_stops, not_space_not_blank. Qed.

(** What [clean_text] returns is left unchanged by each of its three
    steps. *)
Lemma clean_text_fixed (x : str) :
  Re.sub BLANKS [SPACE] (clean_text x) = clean_text x
  /\ Re.sub BLANK_LINES [NL; NL] (clean_text x) = clean_text x
  /\ strip (clean_text x) = clean_text x.
Proof.
  unfold clean_text. split; [|split].
  - apply (fixed_strip _ _ blanks_consumes not_space_stops_blanks).
    apply sub_blank_lines_keeps_blanks, sub_blanks_idempotent.
  - apply (fixed_strip _ _ blank_lines_consumes not_space_stops).
    apply sub_blank_lines_idempotent.
  - apply strip_idempotent.
Qed.

(** C8.  [clean_text] is idempotent: cleaning a cleaned text changes
    nothing. *)
Theorem clean_text_idempotent (x : str) :
  clean_text (clean_text x) = clean_text x.
Proof.
  destruct (clean_text_fixed x) as (Hblanks & Hlines & Hstrip).
  unfold clean_text at 1. cbv zeta. now rewrite Hblanks, Hlines, Hstrip.
Qed.

(* ================================================================== *)
(** * The completion client *)
(* ================================================================== *)

Lemma posted_app (tr1 tr2 : Trace) : posted (tr1 ++ tr2) = posted tr1 ++ posted tr2.
Proof.
  induction tr1 as [|e tr1 IH]; simpl; [reflexivity|].
  destruct e; simpl; now rewrite IH.
Qed.

Lemma truthy_false (s : str) : truthy s = false <-> s = [].
Proof. destruct s; simpl; split; congruence. Qed.

Lemma truthy_true (s : str) : truthy s = true <-> s <> [].
Proof. destruct s; simpl; split; congruence. Qed.

Section ClientFacts.

Variables key mdl : str.
Variable transport : nat -> Request -> Response.

Lemma attempts_success (n : nat) (req : Request) (tr : Trace) text c :
  transport (length (posted tr)) req = Http 200 text (Content c) ->
  attempts transport (S n) req tr = ((Some (strip c), None), tr ++ [Post req]).
Proof.
  intros H. simpl. unfold bind, requests_post. now rewrite H.
Qed.

Lemma attempts_failure (n : nat) (req : Request) (tr : Trace) :
  succeeds (transport (length (posted tr)) req) = false ->
  attempts transport (S n) req tr
  = attempts transport n req
      (tr ++ [Post req;
              StError (failure_report (transport (length (posted tr)) req));
              Sleep 2]).
Proof.
  intros H. simpl. unfold bind, requests_post.
  replace (tr ++ [Post req; StError _; Sleep 2])
    with (((tr ++ [Post req]) ++ [StError (failure_report
             (transport (length (posted tr)) req))]) ++ [Sleep 2])
    by (now rewrite <- !app_assoc).
  destruct (transport (length (posted tr)) req) as [st text [c|e]|e];
    simpl in *; try reflexivity.
  - rewrite H. reflexivity.
  - destruct (st =? 200); reflexivity.
Qed.

Lemma non_200_fails (r : Response) : non_200 r = true -> succeeds r = false.
Proof.
  destruct r as [st text [c|e]|e]; simpl; try reflexivity.
  now destruct (st =? 200).
Qed.

Lemma posted_after_failure (tr : Trace) (req : Request) (m : Message) :
  posted (tr ++ [Post req; StError m; Sleep 2]) = posted tr ++ [req].
Proof. now rewrite posted_app. Qed.

(** Every attempt sends the same request, and there are at most [n]. *)
Lemma attempts_posted (n : nat) (req : Request) (tr : Trace) :
  exists k, (k <= n)%nat
    /\ posted (snd (attempts transport n req tr)) = posted tr ++ repeat req k.
Proof.
  revert tr. induction n as [|n IH]; intros tr.
  - exists 0%nat. simpl. now rewrite app_nil_r.
  - destruct (succeeds (transport (length (posted tr)) req)) eqn:Hs.
    + exists 1%nat. split; [lia|].
      destruct (transport (length (posted tr)) req) as [st text [c|e]|e] eqn:Ht;
        simpl in Hs; try discriminate.
      apply Z.eqb_eq in Hs. subst st.
      rewrite (attempts_success n req tr text c Ht). simpl.
      now rewrite posted_app.
    + rewrite attempts_failure by assumption.
      destruct (IH (tr ++ [Post req;
                 StError (failure_report (transport (length (posted tr)) req));
                 Sleep 2])) as (k & Hk & Hp).
      exists (S k). split; [lia|].
      rewrite Hp, posted_after_failure, <- app_assoc. reflexivity.
Qed.

(** The first usable answer ends the loop. *)
Lemma attempts_first_success (req : Request) (raw c : str) (k : nat) :
  forall (n : nat) (tr : Trace),
    (k < n)%nat ->
    (forall j, (j < k)%nat ->
               succeeds (transport (length (posted tr) + j)%nat req) = false) ->
    transport (length (posted tr) + k)%nat req = Http 200 raw (Content c) ->
    fst (attempts transport n req tr) = (Some (strip c), None)
    /\ posted (snd (attempts transport n req tr))
       = posted tr ++ repeat req (S k).
Proof.
  induction k as [|k IH]; intros n tr Hn Hfail Hok.
  - destruct n as [|n]; [lia|]. rewrite Nat.add_0_r in Hok.
    rewrite (attempts_success n req tr raw c Hok). simpl.
    now rewrite posted_app.
  - destruct n as [|n]; [lia|].
    rewrite attempts_failure
      by (specialize (Hfail 0%nat); rewrite Nat.add_0_r in Hfail;
          apply Hfail; lia).
    set (tr1 := tr ++ _).
    assert (Hlen : length (posted tr1) = S (length (posted tr))).
    { unfold tr1. rewrite posted_after_failure, length_app. simpl. lia. }
    destruct (IH n tr1) as [Hres Hposted].
    + lia.
    + intros j Hj. rewrite Hlen.
      replace (S (length (posted tr)) + j)%nat
        with (length (posted tr) + S j)%nat by lia.
      apply Hfail. lia.
    + rewrite Hlen.
      replace (S (length (posted tr)) + k)%nat
        with (length (posted tr) + S k)%nat by lia.
      exact Hok.
    + split; [exact Hres|].
      rewrite Hposted. unfold tr1.
      rewrite posted_after_failure, <- app_assoc. reflexivity.
Qed.

Lemma call_groq_with_key (prompt : str) (t : Q) (m : Z) :
  key <> [] ->
  call_groq key mdl transport prompt t m
  = attempts transport 3 (request_for key mdl prompt t m).
Proof.
  intros Hk. unfold call_groq.
  apply truthy_true in Hk. now rewrite Hk.
Qed.

Lemma call_groq_posted (prompt : str) (t : Q) (m : Z) (tr : Trace) :
  exists k, (k <= 3)%nat
    /\ posted (snd (call_groq key mdl transport prompt t m tr))
       = posted tr ++ repeat (request_for key mdl prompt t m) k.
Proof.
  unfold call_groq. destruct (truthy key); cbn [negb].
  - apply attempts_posted.
  - exists 0%nat. split; [lia|]. simpl. now rewrite app_nil_r.
Qed.

End ClientFacts.

(** C5.  Without an API key [call_groq] returns at once, with no content and
    the reason "Missing GROQ_API_KEY", whatever the prompt, the temperature
    and the token budget; the trace is left as it was, so nothing was sent. *)
Theorem call_groq_missing_credential
    (mdl : str) (transport : nat -> Request -> Response)
    (prompt : str) (t : Q) (m : Z) (tr : Trace) :
  call_groq [] mdl transport prompt t m tr = ((None, Some MISSING_KEY), tr).
Proof. reflexivity. Qed.

(** C4, as stated, fails when no key is configured: a transport that always
    answers 500 is never called, and the reason returned is the one of the
    missing key. *)
Lemma call_groq_no_attempt_without_key :
  (forall n req, non_200 (always_500 n req) = true)
  /\ posted (snd (call_groq [] (lit "llama3-8b-8192") always_500
                             (lit "hello") 0 400 [])) = []
  /\ fst (call_groq [] (lit "llama3-8b-8192") always_500 (lit "hello") 0 400 [])
     <> (None, Some FAILED_AFTER_RETRIES).
Proof.
  split; [reflexivity|]. split; [reflexivity|].
  vm_compute. discriminate.
Qed.

(** C4, amended.  With an API key configured: against a transport that
    always answers with a status other than 200, [call_groq] sends the
    request exactly three times and returns no content with the reason
    "Failed after retries"; against a transport whose first answer is not a
    usable one and whose second answer is a 200 carrying a message content,
    it sends the request exactly twice and returns that content stripped,
    with no error. *)
Theorem call_groq_retries
    (key mdl : str) (always_failing second_ok : nat -> Request -> Response)
    (prompt : str) (t : Q) (m : Z) (tr : Trace) (text c : str) :
  key <> [] ->
  (forall n req, non_200 (always_failing n req) = true) ->
  succeeds (second_ok (length (posted tr)) (request_for key mdl prompt t m))
  = false ->
  second_ok (S (length (posted tr))) (request_for key mdl prompt t m)
  = Http 200 text (Content c) ->
  (fst (call_groq key mdl always_failing prompt t m tr)
   = (None, Some FAILED_AFTER_RETRIES)
   /\ posted (snd (call_groq key mdl always_failing prompt t m tr))
      = posted tr ++ repeat (request_for key mdl prompt t m) 3)
  /\ (fst (call_groq key mdl second_ok prompt t m tr) = (Some (strip c), None)
      /\ posted (snd (call_groq key mdl second_ok prompt t m tr))
         = posted tr ++ repeat (request_for key mdl prompt t m) 2).
Proof.
  intros Hkey Hfail Hfirst Hsecond.
  rewrite !call_groq_with_key by assumption.
  set (req := request_for key mdl prompt t m) in *.
  split.
  - rewrite 3 attempts_failure by (apply non_200_fails, Hfail).
    simpl attempts. unfold ret. simpl fst. simpl snd.
    rewrite !posted_after_failure, <- !app_assoc. now split.
  - rewrite attempts_failure by assumption.
    erewrite attempts_success.
    + simpl fst. simpl snd. split; [reflexivity|].
      rewrite posted_app, posted_after_failure, <- app_assoc. reflexivity.
    + rewrite posted_after_failure, length_app. simpl length.
      rewrite Nat.add_1_r. exact Hsecond.
Qed.

Lemma call_groq_retries_witness :
  fst (call_groq (lit "k") [] always_500 (lit "p") 0 400 [])
  = (None, Some FAILED_AFTER_RETRIES)
  /\ fst (call_groq (lit "k") [] (second_try (lit " done ")) (lit "p") 0 400 [])
     = (Some (strip (lit " done ")), None).
Proof.
  destruct (call_groq_retries (lit "k") [] always_500
              (second_try (lit " done ")) (lit "p") 0 400 []
              [] (lit " done ")) as [[H1 _] [H2 _]].
  - discriminate.
  - reflexivity.
  - reflexivity.
  - reflexivity.
  - split; [exact H1 | exact H2].
Defined.

(** C10.  With a key configured, when the first usable answer of the
    endpoint (at the first, second or third attempt) is a 200 whose message
    content is empty or all whitespace, [call_groq] returns the empty string
    and no error; [call_groq_chunk] and [groq_fill_missing] (on a text it
    does not split) then return "AI filling failed." and
    [groq_answer_question] returns "AI failed to answer.", as after a failed
    completion. *)
Theorem blank_completion_is_a_failure
    (key mdl : str) (transport : nat -> Request -> Response)
    (text question : str) (tr : Trace) (k : nat) :
  key <> [] ->
  len text <= SPLIT_THRESHOLD ->
  (k < 3)%nat ->
  (forall req j, (j < k)%nat ->
                 succeeds (transport (length (posted tr) + j)%nat req) = false) ->
  (forall req, exists raw c,
      transport (length (posted tr) + k)%nat req = Http 200 raw (Content c)
      /\ strip c = []) ->
  fst (call_groq key mdl transport (fill_prompt text) (2 # 10) 1300 tr)
  = (Some [], None)
  /\ fst (call_groq_chunk key mdl transport text tr) = FILL_FALLBACK
  /\ fst (groq_fill_missing key mdl transport text tr) = FILL_FALLBACK
  /\ fst (call_groq key mdl transport (answer_prompt text question) 0 400 tr)
     = (Some [], None)
  /\ fst (groq_answer_question key mdl transport text question tr)
     = ANSWER_FALLBACK.
Proof.
  intros Hkey Hlen Hk Hfail Hblank.
  assert (Hcall : forall prompt t m,
             fst (call_groq key mdl transport prompt t m tr) = (Some [], None)).
  { intros prompt t m. rewrite call_groq_with_key by assumption.
    destruct (Hblank (request_for key mdl prompt t m)) as (raw & c & Hr & Hc).
    destruct (attempts_first_success transport _ raw c k 3 tr Hk
                (Hfail _) Hr) as [Hres _].
    now rewrite Hres, Hc. }
  assert (Hchunk : fst (call_groq_chunk key mdl transport text tr)
                   = FILL_FALLBACK).
  { unfold call_groq_chunk, bind.
    specialize (Hcall (fill_prompt text) (2 # 10)%Q 1300).
    destruct (call_groq key mdl transport (fill_prompt text) (2 # 10) 1300 tr)
      as [r tr']. simpl in Hcall. subst r. reflexivity. }
  repeat split.
  - apply Hcall.
  - exact Hchunk.
  - unfold groq_fill_missing.
    destruct (Z.ltb_spec SPLIT_THRESHOLD (len text)); [lia | exact Hchunk].
  - apply Hcall.
  - unfold groq_answer_question, bind.
    specialize (Hcall (answer_prompt text question) 0%Q 400).
    destruct (call_groq key mdl transport (answer_prompt text question) 0 400 tr)
      as [r tr']. simpl in Hcall. subst r. reflexivity.
Qed.

Lemma blank_completion_is_a_failure_witness :
  fst (groq_fill_missing (lit "k") [] (second_try (lit "  "))
         (lit "Name: N/A") [])
  = FILL_FALLBACK
  /\ fst (groq_answer_question (lit "k") [] (second_try (lit "  "))
            (lit "Name: N/A") (lit "Name?") [])
     = ANSWER_FALLBACK.
Proof.
  destruct (blank_completion_is_a_failure (lit "k") [] (second_try (lit "  "))
              (lit "Name: N/A") (lit "Name?") [] 1)
    as (_ & _ & Hfill & _ & Hanswer).
  - discriminate.
  - vm_compute. discriminate.
  - lia.
  - intros req j Hj. assert (j = 0%nat) as -> by lia. reflexivity.
  - intros req. exists [], (lit "  "). split; reflexivity.
  - split; [exact Hfill | exact Hanswer].
Defined.

(* ================================================================== *)
(** * The fill workflow *)
(* ================================================================== *)

Section FillFacts.

Variables key mdl : str.
Variable transport : nat -> Request -> Response.

Lemma fill_loop_in_order (total : Z) (todo : list str) :
  forall (idx : Z) (filled_chunks : list str) (tr : Trace),
  exists results ks tr',
    fill_loop key mdl transport total idx todo filled_chunks tr
    = (filled_chunks ++ map fill_output results, tr')
    /\ in_order key mdl transport total idx todo tr results tr'
    /\ length results = length todo
    /\ length ks = length todo
    /\ Forall (fun k => (k <= 3)%nat) ks
    /\ posted tr' = posted tr ++ requests_of key mdl todo ks.
Proof.
  induction todo as [|chunk todo IH]; intros idx filled_chunks tr.
  - exists [], [], tr. simpl. unfold ret, requests_of. simpl.
    rewrite !app_nil_r. repeat split; constructor.
  - simpl. unfold bind at 1. unfold st_info, emit.
    unfold bind at 1. unfold call_groq_chunk, bind at 1.
    set (tr0 := tr ++ [StInfo (FillingChunk idx total)]).
    destruct (call_groq key mdl transport (fill_prompt chunk) (2 # 10) 1300 tr0)
      as [r tr1] eqn:Hcall.
    unfold ret.
    destruct (IH (idx + 1) (filled_chunks ++ [or_fallback (fst r) FILL_FALLBACK])
                tr1) as (results & ks & tr' & Hloop & Hord & Hlen & Hks & Hle & Hp).
    destruct (call_groq_posted key mdl transport (fill_prompt chunk) (2 # 10)
                1300 tr0) as (k & Hk & Hpk).
    rewrite Hcall in Hpk. simpl in Hpk.
    exists (r :: results), (k :: ks), tr'. repeat split.
    + rewrite Hloop, <- app_assoc. reflexivity.
    + econstructor; eassumption.
    + simpl. now rewrite Hlen.
    + simpl. now rewrite Hks.
    + now constructor.
    + rewrite Hp, Hpk. unfold tr0. rewrite posted_app. simpl.
      rewrite app_nil_r, <- app_assoc. reflexivity.
Qed.

End FillFacts.

Lemma fill_output_contributes (r : option str * option str) :
  contributes r (fill_output r).
Proof. destruct r as [[[|c s]|] e]; reflexivity. Qed.

(** With a key every call sends at least one request. *)
Lemma call_groq_posted_bounds
    (key mdl : str) (transport : nat -> Request -> Response)
    (prompt : str) (t : Q) (m : Z) (tr : Trace) :
  exists k, (k <= 3)%nat
    /\ (key <> [] -> (1 <= k)%nat)
    /\ posted (snd (call_groq key mdl transport prompt t m tr))
       = posted tr ++ repeat (request_for key mdl prompt t m) k.
Proof.
  destruct key as [|k0 key].
  - exists 0%nat. split; [lia|]. split; [congruence|].
    simpl. now rewrite app_nil_r.
  - rewrite call_groq_with_key by discriminate.
    set (req := request_for (k0 :: key) mdl prompt t m).
    destruct (succeeds (transport (length (posted tr)) req)) eqn:Hs.
    + exists 1%nat. split; [lia|]. split; [lia|].
      destruct (transport (length (posted tr)) req) as [st raw [c|e]|e] eqn:Ht;
        simpl in Hs; try discriminate.
      apply Z.eqb_eq in Hs. subst st.
      rewrite (attempts_success transport 2 req tr raw c Ht). simpl.
      now rewrite posted_app.
    + rewrite attempts_failure by assumption.
      destruct (attempts_posted transport 2 req
                  (tr ++ [Post req;
                          StError (failure_report
                                     (transport (length (posted tr)) req));
                          Sleep 2])) as (k & Hk & Hp).
      exists (S k). split; [lia|]. split; [lia|].
      rewrite Hp, posted_after_failure, <- app_assoc. reflexivity.
Qed.

(** The loop over the chunks: what it returns, in which order it calls the
    client, and what it sends. *)
Lemma fill_loop_run
    (key mdl : str) (transport : nat -> Request -> Response)
    (total : Z) (todo : list str) :
  forall (idx : Z) (filled_chunks : list str) (tr : Trace),
  exists results outs ks tr',
    fill_loop key mdl transport total idx todo filled_chunks tr
    = (filled_chunks ++ outs, tr')
    /\ in_order key mdl transport total idx todo tr results tr'
    /\ Forall2 contributes results outs
    /\ length outs = length todo
    /\ length ks = length todo
    /\ Forall (fun k => (k <= 3)%nat) ks
    /\ (key <> [] -> Forall (fun k => (1 <= k)%nat) ks)
    /\ posted tr' = posted tr ++ requests_of key mdl todo ks.
Proof.
  induction todo as [|chunk todo IH]; intros idx filled_chunks tr.
  - exists [], [], [], tr. simpl. unfold ret, requests_of. simpl.
    rewrite !app_nil_r.
    split; [reflexivity|]. split; [constructor|]. split; [constructor|].
    split; [reflexivity|]. split; [reflexivity|]. split; [constructor|].
    split; [constructor | reflexivity].
  - simpl. unfold bind at 1. unfold st_info, emit.
    unfold bind at 1. unfold call_groq_chunk, bind at 1.
    set (tr0 := tr ++ [StInfo (FillingChunk idx total)]).
    destruct (call_groq key mdl transport (fill_prompt chunk) (2 # 10) 1300 tr0)
      as [r tr1] eqn:Hcall.
    unfold ret.
    destruct (IH (idx + 1) (filled_chunks ++ [or_fallback (fst r) FILL_FALLBACK])
                tr1)
      as (results & outs & ks & tr' & Hloop & Hord & Hout & Hlen & Hks & Hle
          & Hge & Hp).
    destruct (call_groq_posted_bounds key mdl transport (fill_prompt chunk)
                (2 # 10) 1300 tr0) as (k & Hk & Hk1 & Hpk).
    rewrite Hcall in Hpk. simpl in Hpk.
    exists (r :: results), (fill_output r :: outs), (k :: ks), tr'.
    split; [rewrite Hloop, <- app_assoc; reflexivity|].
    split; [econstructor; eassumption|].
    split; [constructor; [apply fill_output_contributes | assumption]|].
    split; [simpl; now rewrite Hlen|].
    split; [simpl; now rewrite Hks|].
    split; [now constructor|].
    split; [intros Hkey; constructor; auto|].
    rewrite Hp, Hpk. unfold tr0. rewrite posted_app. simpl.
    rewrite app_nil_r, <- app_assoc. reflexivity.
Qed.

(** C2.  On a text longer than 8000 characters [groq_fill_missing] returns
    a string: the outputs of the chunks joined by newlines in chunk order,
    one output for every chunk.  The chunks are completed one after the
    other in that order (each call starts on the trace the previous one
    left, and all requests for a chunk are sent before any request for the
    next one, at most three per chunk and, with a key, at least one).  A
    chunk whose completion returned a non-empty content contributes that
    content; a chunk whose completion failed, or returned an empty content,
    contributes "AI filling failed.". *)
Theorem groq_fill_missing_long
    (key mdl : str) (transport : nat -> Request -> Response)
    (text : str) (tr : Trace) :
  SPLIT_THRESHOLD < len text ->
  exists results outs ks tr',
    groq_fill_missing key mdl transport text tr = (join [NL] outs, tr')
    /\ in_order key mdl transport (len (chunks text)) 1 (chunks text)
                (tr ++ [StWarning TextTooLarge]) results tr'
    /\ Forall2 contributes results outs
    /\ length outs = length (chunks text)
    /\ length ks = length (chunks text)
    /\ Forall (fun k => (k <= 3)%nat) ks
    /\ (key <> [] -> Forall (fun k => (1 <= k)%nat) ks)
    /\ posted tr' = posted tr ++ requests_of key mdl (chunks text) ks.
Proof.
  intros Hlong. unfold groq_fill_missing.
  destruct (Z.ltb_spec SPLIT_THRESHOLD (len text)) as [_|]; [|lia].
  unfold bind at 1. unfold st_warning, emit. unfold bind at 1.
  destruct (fill_loop_run key mdl transport (len (chunks text))
              (chunks text) 1 [] (tr ++ [StWarning TextTooLarge]))
    as (results & outs & ks & tr' & Hloop & Hord & Hout & Hlen & Hks & Hle
        & Hge & Hp).
  exists results, outs, ks, tr'. rewrite Hloop. unfold ret. simpl app.
  split; [reflexivity|]. split; [assumption|]. split; [assumption|].
  split; [assumption|]. split; [assumption|]. split; [assumption|].
  split; [assumption|].
  rewrite Hp, posted_app. simpl. now rewrite app_nil_r.
Qed.

Lemma groq_fill_missing_long_witness :
  SPLIT_THRESHOLD < len (repeat 97%N (Z.to_nat 8001))
  /\ fst (groq_fill_missing (lit "k") [] (first_only (lit " ok "))
            (repeat 97%N (Z.to_nat 8001)) [])
     = lit "ok" ++ [NL] ++ FILL_FALLBACK ++ [NL] ++ FILL_FALLBACK
  /\ exists results outs ks tr',
       groq_fill_missing (lit "k") [] (first_only (lit " ok "))
         (repeat 97%N (Z.to_nat 8001)) []
       = (join [NL] outs, tr')
       /\ in_order (lit "k") [] (first_only (lit " ok "))
            (len (chunks (repeat 97%N (Z.to_nat 8001)))) 1
            (chunks (repeat 97%N (Z.to_nat 8001)))
            ([] ++ [StWarning TextTooLarge]) results tr'
       /\ Forall2 contributes results outs
       /\ length outs = length (chunks (repeat 97%N (Z.to_nat 8001)))
       /\ length ks = length (chunks (repeat 97%N (Z.to_nat 8001)))
       /\ Forall (fun k => (k <= 3)%nat) ks
       /\ (lit "k" <> [] -> Forall (fun k => (1 <= k)%nat) ks)
       /\ posted tr'
          = posted [] ++ requests_of (lit "k") []
                           (chunks (repeat 97%N (Z.to_nat 8001))) ks.
Proof.
  split; [vm_compute; reflexivity|].
  split; [vm_compute; reflexivity|].
  apply (groq_fill_missing_long (lit "k") [] (first_only (lit " ok "))
           (repeat 97%N (Z.to_nat 8001)) []).
  vm_compute. reflexivity.
Defined.

Lemma range_from_step (fuel : nat) (i stop step : Z) :
  (0 < fuel)%nat -> i < stop ->
  range_from fuel i stop step = i :: range_from (Nat.pred fuel) (i + step) stop step.
Proof.
  intros Hf Hi. destruct fuel; [lia|]. simpl.
  destruct (Z.ltb_spec i stop); [reflexivity | lia].
Qed.

Lemma len_slice {A} (s : list A) (i j : Z) :
  0 <= i <= j -> i <= len s -> len (slice s i j) = Z.min (j - i) (len s - i).
Proof.
  intros Hij Hi. rewrite slice_firstn_skipn by assumption.
  unfold len in *. rewrite length_firstn, length_skipn. lia.
Qed.

(** C3, as stated, fails on a 200 answer whose content is blank: the client
    returns the empty string with no error, and the workflow returns the
    fallback instead of that result. *)
Lemma fill_8000_blank_not_verbatim :
  len (repeat 97%N (Z.to_nat 8000)) = 8000
  /\ fst (call_groq (lit "k") [] (always_200 (lit "  "))
            (fill_prompt (repeat 97%N (Z.to_nat 8000))) (2 # 10) 1300 [])
     = (Some [], None)
  /\ fst (groq_fill_missing (lit "k") [] (always_200 (lit "  "))
            (repeat 97%N (Z.to_nat 8000)) [])
     = FILL_FALLBACK
  /\ FILL_FALLBACK <> [].
Proof.
  split; [vm_compute; reflexivity|].
  split; [vm_compute; reflexivity|].
  split; [vm_compute; reflexivity | discriminate].
Qed.

(** C3, amended.  A text of exactly 8000 characters is not split:
    [groq_fill_missing] makes the one [call_groq] call on the prompt built
    from the whole text, returns its content unchanged when that is a
    non-empty string and "AI filling failed." when the client returns no
    content or an empty one.  A text of 8001 characters is split:
    [groq_fill_missing] cuts it into exactly three chunks, of 4000, 4000
    and 1 characters, calls the client for the first, then the second, then
    the third, and returns the three outputs joined by newlines. *)
Theorem groq_fill_missing_threshold
    (key mdl : str) (transport : nat -> Request -> Response)
    (text8000 text8001 : str) (tr : Trace) :
  len text8000 = 8000 ->
  len text8001 = 8001 ->
  (contributes
     (fst (call_groq key mdl transport (fill_prompt text8000) (2 # 10) 1300 tr))
     (fst (groq_fill_missing key mdl transport text8000 tr))
   /\ snd (groq_fill_missing key mdl transport text8000 tr)
      = snd (call_groq key mdl transport (fill_prompt text8000) (2 # 10) 1300 tr))
  /\ (forall c e,
         fst (call_groq key mdl transport (fill_prompt text8000) (2 # 10) 1300 tr)
         = (Some c, e) ->
         c <> [] ->
         fst (groq_fill_missing key mdl transport text8000 tr) = c)
  /\ (forall r,
         fst (call_groq key mdl transport (fill_prompt text8000) (2 # 10) 1300 tr)
         = r ->
         fst r = None \/ fst r = Some [] ->
         fst (groq_fill_missing key mdl transport text8000 tr) = FILL_FALLBACK)
  /\ map len (chunks text8001) = [4000; 4000; 1]
  /\ exists c1 c2 c3 results outs ks tr',
       chunks text8001 = [c1; c2; c3]
       /\ text8001 = c1 ++ c2 ++ c3
       /\ len c1 = 4000 /\ len c2 = 4000 /\ len c3 = 1
       /\ groq_fill_missing key mdl transport text8001 tr
          = (join [NL] outs, tr')
       /\ in_order key mdl transport 3 1 [c1; c2; c3]
                   (tr ++ [StWarning TextTooLarge]) results tr'
       /\ Forall2 contributes results outs
       /\ length outs = 3%nat
       /\ length ks = 3%nat
       /\ Forall (fun k => (k <= 3)%nat) ks
       /\ (key <> [] -> Forall (fun k => (1 <= k)%nat) ks)
       /\ posted tr' = posted tr ++ requests_of key mdl [c1; c2; c3] ks.
Proof.
  intros H8000 H8001.
  assert (Hone : groq_fill_missing key mdl transport text8000 tr
                 = (fill_output (fst (call_groq key mdl transport
                                        (fill_prompt text8000) (2 # 10) 1300 tr)),
                    snd (call_groq key mdl transport (fill_prompt text8000)
                                   (2 # 10) 1300 tr))).
  { unfold groq_fill_missing. rewrite H8000. simpl.
    unfold call_groq_chunk, bind, ret, fill_output.
    now destruct (call_groq key mdl transport (fill_prompt text8000) (2 # 10)
                    1300 tr). }
  assert (Hsizes : map len (chunks text8001) = [4000; 4000; 1]).
  { unfold chunks, chunks_of, range, CHUNK_SIZE. rewrite H8001.
    rewrite 3 range_from_step by lia.
    rewrite range_from_done by lia.
    simpl map. rewrite !len_slice by lia. rewrite H8001. reflexivity. }
  split; [|split; [|split; [|split; [exact Hsizes|]]]].
  - rewrite Hone. split; [apply fill_output_contributes | reflexivity].
  - intros c e Hc Hne. rewrite Hone, Hc. simpl.
    unfold fill_output, or_fallback. simpl.
    apply truthy_true in Hne. now rewrite Hne.
  - intros r Hc Hr. rewrite Hone, Hc. simpl. unfold fill_output.
    now destruct Hr as [-> | ->].
  - pose proof (chunks_of_concat CHUNK_SIZE eq_refl text8001) as Hcat.
    fold (chunks text8001) in Hcat.
    unfold groq_fill_missing.
    destruct (Z.ltb_spec SPLIT_THRESHOLD (len text8001)) as [_|Hle];
      [|unfold SPLIT_THRESHOLD in Hle; lia].
    destruct (chunks text8001) as [|c1 [|c2 [|c3 [|c4 rest]]]];
      try discriminate Hsizes.
    injection Hsizes as Hl1 Hl2 Hl3.
    unfold bind at 1. unfold st_warning, emit. unfold bind at 1.
    destruct (fill_loop_run key mdl transport (len [c1; c2; c3])
                [c1; c2; c3] 1 [] (tr ++ [StWarning TextTooLarge]))
      as (results & outs & ks & tr' & Hloop & Hord & Hout & Hlen & Hks & Hle
          & Hge & Hp).
    exists c1, c2, c3, results, outs, ks, tr'. rewrite Hloop. unfold ret.
    simpl app.
    split; [reflexivity|].
    split; [rewrite <- Hcat; simpl; now rewrite app_nil_r|].
    split; [assumption|]. split; [assumption|]. split; [assumption|].
    split; [reflexivity|]. split; [exact Hord|]. split; [assumption|].
    split; [assumption|]. split; [assumption|]. split; [assumption|].
    split; [assumption|].
    rewrite Hp, posted_app. simpl. now rewrite app_nil_r.
Qed.

Lemma groq_fill_missing_threshold_witness :
  len (repeat 97%N (Z.to_nat 8000)) = 8000
  /\ len (repeat 97%N (Z.to_nat 8001)) = 8001
  /\ fst (groq_fill_missing (lit "k") [] (first_only (lit " ok "))
            (repeat 97%N (Z.to_nat 8000)) [])
     = lit "ok"
  /\ posted (snd (groq_fill_missing (lit "k") [] (first_only (lit " ok "))
                    (repeat 97%N (Z.to_nat 8000)) []))
     = [fill_request (lit "k") [] (repeat 97%N (Z.to_nat 8000))]
  /\ fst (groq_fill_missing (lit "k") [] (first_only (lit " ok "))
            (repeat 97%N (Z.to_nat 8001)) [])
     = lit "ok" ++ [NL] ++ FILL_FALLBACK ++ [NL] ++ FILL_FALLBACK
  /\ map len (chunks (repeat 97%N (Z.to_nat 8001))) = [4000; 4000; 1]
  /\ exists c1 c2 c3 results outs ks tr',
       chunks (repeat 97%N (Z.to_nat 8001)) = [c1; c2; c3]
       /\ repeat 97%N (Z.to_nat 8001) = c1 ++ c2 ++ c3
       /\ len c1 = 4000 /\ len c2 = 4000 /\ len c3 = 1
       /\ groq_fill_missing (lit "k") [] (first_only (lit " ok "))
            (repeat 97%N (Z.to_nat 8001)) []
          = (join [NL] outs, tr')
       /\ in_order (lit "k") [] (first_only (lit " ok ")) 3 1 [c1; c2; c3]
                   ([] ++ [StWarning TextTooLarge]) results tr'
       /\ Forall2 contributes results outs
       /\ length outs = 3%nat
       /\ length ks = 3%nat
       /\ Forall (fun k => (k <= 3)%nat) ks
       /\ (lit "k" <> [] -> Forall (fun k => (1 <= k)%nat) ks)
       /\ posted tr'
          = posted [] ++ requests_of (lit "k") [] [c1; c2; c3] ks.
Proof.
  split; [vm_compute; reflexivity|].
  split; [vm_compute; reflexivity|].
  split; [vm_compute; reflexivity|].
  split; [vm_compute; reflexivity|].
  split; [vm_compute; reflexivity|].
  apply (groq_fill_missing_threshold (lit "k") [] (first_only (lit " ok "))
           (repeat 97%N (Z.to_nat 8000)) (repeat 97%N (Z.to_nat 8001)) []).
  - vm_compute. reflexivity.
  - vm_compute. reflexivity.
Defined.

(* ================================================================== *)
(** * The PDF renderer *)
(* ================================================================== *)

Lemma drawn_app (c1 c2 : list CanvasOp) : drawn (c1 ++ c2) = drawn c1 ++ drawn c2.
Proof.
  induction c1 as [|op c1 IH]; simpl; [reflexivity|].
  destruct op; simpl; now rewrite IH.
Qed.

Lemma wrap_loop_stop (fuel : nat) (line : str) (y : Z) (c : list CanvasOp) :
  len line <= WRAP -> wrap_loop fuel line y c = (line, y, c).
Proof.
  intros H. destruct fuel; simpl; [reflexivity|].
  destruct (Z.ltb_spec WRAP (len line)); [lia | reflexivity].
Qed.

Lemma wrap_loop_step (fuel : nat) (line : str) (y : Z) (c : list CanvasOp) :
  (0 < fuel)%nat -> WRAP < len line ->
  wrap_loop fuel line y c
  = wrap_loop (Nat.pred fuel) (slice_from line WRAP) (y - LINE_HEIGHT)
              (c ++ [DrawString MARGIN y (slice_to line WRAP)]).
Proof.
  intros Hf H. destruct fuel; [lia|]. simpl.
  destruct (Z.ltb_spec WRAP (len line)); [reflexivity | lia].
Qed.

(** The loop leaves by its own test: what remains of the line fits. *)
Lemma wrap_loop_fits (line : str) (y : Z) (c : list CanvasOp) :
  len (fst (fst (wrap_loop (length line) line y c))) <= WRAP.
Proof.
  enough (H : forall fuel l y' c',
             (length l <= fuel)%nat ->
             len (fst (fst (wrap_loop fuel l y' c'))) <= WRAP)
    by (apply H; lia).
  induction fuel as [|fuel IH]; intros l y' c' Hl.
  - destruct l; [|simpl in Hl; lia]. simpl. unfold len, WRAP. simpl. lia.
  - simpl. destruct (Z.ltb_spec WRAP (len l)) as [Hlong|Hfits].
    + apply IH. unfold slice_from, WRAP in *.
      pose proof (len_slice l 110 (len l)) as Hs.
      unfold len in *. lia.
    + exact Hfits.
Qed.

Lemma draw_line_nonblank (height y : Z) (c : list CanvasOp) (line : str) :
  strip line <> [] ->
  drawn (snd (draw_line height (y, c) line))
  = drawn (snd (wrap_loop (length line) line y c))
    ++ [(snd (fst (wrap_loop (length line) line y c)),
         strip (fst (fst (wrap_loop (length line) line y c))))].
Proof.
  intros Hnb. unfold draw_line. apply truthy_true in Hnb. rewrite Hnb. simpl negb.
  cbv iota.
  destruct (wrap_loop (length line) line y c) as [[line' y'] c'].
  simpl. destruct (y' - LINE_HEIGHT <? MARGIN); simpl.
  - rewrite !drawn_app. simpl. now rewrite app_nil_r.
  - now rewrite drawn_app.
Qed.

Lemma draw_line_110 (height y : Z) (c : list CanvasOp) (line : str) :
  strip line <> [] -> len line = 110 ->
  drawn (snd (draw_line height (y, c) line)) = drawn c ++ [(y, strip line)].
Proof.
  intros Hnb Hlen. rewrite draw_line_nonblank by assumption.
  rewrite wrap_loop_stop by (unfold WRAP; lia). reflexivity.
Qed.

Lemma draw_line_111 (height y : Z) (c : list CanvasOp) (line : str) :
  strip line <> [] -> len line = 111 ->
  drawn (snd (draw_line height (y, c) line))
  = drawn c ++ [(y, slice_to line 110); (y - 12, strip (slice_from line 110))].
Proof.
  intros Hnb Hlen. rewrite draw_line_nonblank by assumption.
  assert (Hrest : len (slice_from line WRAP) = 1).
  { unfold slice_from, WRAP. rewrite len_slice by lia. lia. }
  rewrite wrap_loop_step by (unfold len, WRAP in *; lia).
  rewrite wrap_loop_stop by (unfold WRAP in *; lia).
  simpl. rewrite drawn_app. simpl. rewrite <- app_assoc. reflexivity.
Qed.

(** C7.  In the loop of [generate_pdf], a non-blank line of exactly 110
    characters is drawn by one [drawString]; a non-blank line of 111
    characters by two, the first 110 characters at the cursor and the rest
    one line height below. *)
Theorem draw_line_wraps_after_110
    (height y : Z) (c : list CanvasOp) (line110 line111 : str) :
  strip line110 <> [] -> len line110 = 110 ->
  strip line111 <> [] -> len line111 = 111 ->
  drawn (snd (draw_line height (y, c) line110))
  = drawn c ++ [(y, strip line110)]
  /\ drawn (snd (draw_line height (y, c) line111))
     = drawn c ++ [(y, slice_to line111 110);
                   (y - 12, strip (slice_from line111 110))].
Proof.
  intros Hnb0 Hlen0 Hnb1 Hlen1. split.
  - now apply draw_line_110.
  - now apply draw_line_111.
Qed.

Lemma draw_line_wraps_after_110_witness :
  drawn (snd (draw_line 792 (722, []) (repeat 97%N 110)))
  = [(722, strip (repeat 97%N 110))]
  /\ drawn (snd (draw_line 792 (722, []) (repeat 97%N 111)))
     = [(722, slice_to (repeat 97%N 111) 110);
        (722 - 12, strip (slice_from (repeat 97%N 111) 110))].
Proof.
  apply (draw_line_wraps_after_110 792 722 [] (repeat 97%N 110)
           (repeat 97%N 111)).
  - vm_compute. discriminate.
  - reflexivity.
  - vm_compute. discriminate.
  - reflexivity.
Defined.

Lemma split_no_sep (sep : char) (s : str) :
  ~ In sep s -> split sep s = [s].
Proof.
  induction s as [|x s IH]; intros Hs; simpl; [reflexivity|].
  destruct (N.eqb_spec x sep) as [->|_]; [exfalso; apply Hs; now left|].
  rewrite IH; [reflexivity|]. intros H. apply Hs. now right.
Qed.

Lemma layout_unfold (filled_text : str) :
  layout filled_text
  = fold_left (draw_line 792) (split NL filled_text)
      (722, [SetFont (lit "Helvetica-Bold") 14; DrawString MARGIN 752 TITLE;
             SetFont (lit "Helvetica") 10]).
Proof. reflexivity. Qed.

(** The same on whole documents of one line: below the title, one drawn
    line for 110 characters, two for 111. *)
Lemma generate_pdf_one_line (line : str) :
  ~ In NL line -> strip line <> [] ->
  (len line = 110 ->
   drawn (generate_pdf line) = [(752, TITLE); (722, strip line)])
  /\ (len line = 111 ->
      drawn (generate_pdf line)
      = [(752, TITLE); (722, slice_to line 110);
         (710, strip (slice_from line 110))]).
Proof.
  intros Hnl Hnb. unfold generate_pdf. rewrite layout_unfold.
  rewrite (split_no_sep NL line Hnl). cbn [fold_left].
  split; intros Hlen; rewrite drawn_app.
  - rewrite draw_line_110 by assumption. reflexivity.
  - rewrite draw_line_111 by assumption. reflexivity.
Qed.

(** C6 fails on the code.  On a form with two header lines and 28
    double-spaced lines the last line is drawn at height 38, below the
    bottom margin of 40: the blank line before it moves the cursor from 50
    to 38 without the test that follows a drawn line, and the page is
    turned only after the line has been drawn. *)
Theorem double_spaced_form_drawn_below_margin :
  In (38, lit "x") (drawn (generate_pdf double_spaced_form))
  /\ 38 < MARGIN
  /\ exists c,
       generate_pdf double_spaced_form
       = c ++ [DrawString MARGIN 38 (lit "x"); ShowPage;
               SetFont (lit "Helvetica") 10; Save]
       /\ ~ In ShowPage c.
Proof.
  split; [vm_compute; tauto|]. split; [reflexivity|].
  exists (removelast (removelast (removelast (removelast
            (generate_pdf double_spaced_form))))).
  split; [vm_compute; reflexivity|].
  intros H. vm_compute in H.
  repeat (destruct H as [H|H]; [discriminate H|]). exact H.
Qed.

(** Where every line is non-blank and fits the width, the test after each
    drawn line does keep the text at or above the bottom margin. *)
Lemma short_lines_stay_above_margin (height : Z) (lines : list str) :
  2 * MARGIN <= height ->
  Forall (fun line => strip line <> [] /\ len line <= WRAP) lines ->
  forall (y : Z) (c : list CanvasOp),
    MARGIN <= y ->
    Forall (fun d => MARGIN <= fst d) (drawn c) ->
    MARGIN <= fst (fold_left (draw_line height) lines (y, c))
    /\ Forall (fun d => MARGIN <= fst d)
              (drawn (snd (fold_left (draw_line height) lines (y, c)))).
Proof.
  intros Hheight.
  induction 1 as [|line lines [Hnb Hshort] _ IH]; intros y c Hy Hc.
  - now split.
  - cbn [fold_left].
    assert (Hstep : draw_line height (y, c) line
            = if y - LINE_HEIGHT <? MARGIN
              then (height - MARGIN,
                    (c ++ [DrawString MARGIN y (strip line)])
                    ++ [ShowPage; SetFont (lit "Helvetica") 10])
              else (y - LINE_HEIGHT, c ++ [DrawString MARGIN y (strip line)])).
    { unfold draw_line. apply truthy_true in Hnb. rewrite Hnb. simpl negb.
      cbv iota. now rewrite wrap_loop_stop. }
    rewrite Hstep.
    assert (Hc' : Forall (fun d => MARGIN <= fst d)
                         (drawn (c ++ [DrawString MARGIN y (strip line)]))).
    { rewrite drawn_app. apply Forall_app. split; [assumption|].
      simpl. now repeat constructor. }
    destruct (Z.ltb_spec (y - LINE_HEIGHT) MARGIN).
    + apply IH; [lia|].
      rewrite drawn_app. simpl. now rewrite app_nil_r.
    + now apply IH.
Qed.

(* ================================================================== *)
(** * The OCR adapter *)
(* ================================================================== *)

Section OCRFacts.

Variables (pdf image : Type).
Variable convert_from_bytes : pdf -> list image + str.
Variable image_to_string : image -> option str.

Lemma ocr_pages_all (images : list image) (texts : list str) :
  map image_to_string images = map Some texts ->
  forall full_text,
    ocr_pages image image_to_string images full_text
    = Some (full_text
            ++ concat (map (fun t => clean_text t ++ [NL; NL]) texts)).
Proof.
  revert texts. induction images as [|img images IH]; intros texts Hall acc.
  - destruct texts; [|discriminate]. simpl. now rewrite app_nil_r.
  - destruct texts as [|t texts]; [discriminate|].
    simpl in Hall. injection Hall as Himg Hrest.
    simpl. rewrite Himg, (IH texts Hrest), <- !app_assoc. reflexivity.
Qed.

End OCRFacts.

(** C9, as stated, fails: the blank line is put after every page, the last
    one included, not between the pages.  A one-page document whose OCR
    text is "a" gives "a\n\n", not "a". *)
Lemma pdf_to_text_ends_with_blank_line :
  fst (pdf_to_text (list str) str (fun pages => inl pages) Some [lit "a"] [])
  = Some (lit "a" ++ [NL; NL])
  /\ join [NL; NL] (map clean_text [lit "a"]) = lit "a"
  /\ lit "a" ++ [NL; NL] <> lit "a".
Proof.
  split; [reflexivity|]. split; [reflexivity|]. discriminate.
Qed.

(** C9, amended.  When the rasteriser returns the page images and the OCR
    engine returns a text for each page, [pdf_to_text] returns the texts of
    the pages in order, each cleaned by [clean_text] and each followed by
    "\n\n", and shows no message.  On a session whose [ocr_text] is still
    empty the upload step stores exactly this as [ocr_text] and leaves the
    rest of the session as it was. *)
Theorem pdf_to_text_pages
    (pdf image : Type) (convert_from_bytes : pdf -> list image + str)
    (image_to_string : image -> option str)
    (pdf_file : pdf) (images : list image) (texts : list str)
    (s : Session) (tr : Trace) :
  convert_from_bytes pdf_file = inl images ->
  map image_to_string images = map Some texts ->
  ocr_text s = [] ->
  pdf_to_text pdf image convert_from_bytes image_to_string pdf_file tr
  = (Some (concat (map (fun t => clean_text t ++ [NL; NL]) texts)), tr)
  /\ upload_step pdf image convert_from_bytes image_to_string pdf_file s tr
     = (Some {| ocr_text :=
                  concat (map (fun t => clean_text t ++ [NL; NL]) texts);
                filled_text := filled_text s;
                qa_history := qa_history s |}, tr).
Proof.
  intros Hconv Hocr Hempty.
  assert (Hp : pdf_to_text pdf image convert_from_bytes image_to_string
                 pdf_file tr
               = (Some (concat (map (fun t => clean_text t ++ [NL; NL]) texts)),
                  tr)).
  { unfold pdf_to_text. rewrite Hconv. unfold ret.
    now rewrite (ocr_pages_all image image_to_string images texts Hocr). }
  split; [exact Hp|].
  unfold upload_step. rewrite Hempty. simpl. unfold bind. now rewrite Hp.
Qed.

Lemma pdf_to_text_pages_witness :
  pdf_to_text (list str) str (fun pages => inl pages) Some
    [lit " a  b "; lit "c"] []
  = (Some (concat (map (fun t => clean_text t ++ [NL; NL])
                       [lit " a  b "; lit "c"])), [])
  /\ upload_step (list str) str (fun pages => inl pages) Some
       [lit " a  b "; lit "c"]
       {| ocr_text := []; filled_text := []; qa_history := [] |} []
     = (Some {| ocr_text :=
                  concat (map (fun t => clean_text t ++ [NL; NL])
                              [lit " a  b "; lit "c"]);
                filled_text := [];
                qa_history := [] |}, []).
Proof.
  apply (pdf_to_text_pages (list str) str (fun pages => inl pages) Some
           [lit " a  b "; lit "c"] [lit " a  b "; lit "c"]
           [lit " a  b "; lit "c"]
           {| ocr_text := []; filled_text := []; qa_history := [] |} []).
  - reflexivity.
  - reflexivity.
  - reflexivity.
Defined.

(* ================================================================== *)
(** * Further properties *)
(* ================================================================== *)

(* ================================================================== *)
(** * What clean_text returns *)
(* ================================================================== *)

(** What a match consumes is a prefix of the subject, made of characters of
    the classes of the pattern. *)
Lemma star_prefix (Q : char -> Prop) (cls : char -> bool)
    (k : str -> option str) :
  (forall x, cls x = true -> Q x) ->
  (forall s r, k s = Some r -> exists m, s = m ++ r /\ Forall Q m) ->
  forall s r, Re.star cls k s = Some r -> exists m, s = m ++ r /\ Forall Q m.
Proof.
  intros Hcls Hk s. induction s as [|x s IH]; intros r H; cbn [Re.star] in H.
  - now apply Hk.
  - destruct (cls x) eqn:Hx; [|now apply Hk].
    destruct (Re.star cls k s) as [r'|] eqn:Hs; [|now apply Hk].
    injection H as <-. destruct (IH r' eq_refl) as (m & -> & Hm).
    exists (x :: m). split; [reflexivity | constructor; auto].
Qed.

Lemma match_here_prefix (Q : char -> Prop) (p : Re.pattern) :
  Forall (fun it => forall x, fst it x = true -> Q x) p ->
  forall s r, Re.match_here p s = Some r -> exists m, s = m ++ r /\ Forall Q m.
Proof.
  induction p as [|[cls q] p IH]; intros Hp s r H.
  - injection H as <-. now exists [].
  - inversion Hp as [|? ? Hcls Hp']; subst. simpl in Hcls.
    specialize (IH Hp').
    destruct q; cbn [Re.match_here] in H.
    + destruct s as [|x s]; [discriminate|].
      destruct (cls x) eqn:Hx; [|discriminate].
      destruct (IH s r H) as (m & -> & Hm).
      exists (x :: m). split; [reflexivity | constructor; auto].
    + now apply (star_prefix Q cls (Re.match_here p) Hcls IH).
    + destruct s as [|x s]; [discriminate|].
      destruct (cls x) eqn:Hx; [|discriminate].
      destruct (star_prefix Q cls (Re.match_here p) Hcls IH s r H)
        as (m & -> & Hm).
      exists (x :: m). split; [reflexivity | constructor; auto].
Qed.

Lemma blanks_space_only :
  Forall (fun it => forall x, fst it x = true -> isspace x = true) BLANKS.
Proof. repeat constructor. exact is_blank_isspace. Qed.

Lemma blank_lines_space_only :
  Forall (fun it => forall x, fst it x = true -> isspace x = true) BLANK_LINES.
Proof.
  repeat constructor; simpl; auto using is_nl_isspace.
Qed.

Lemma filter_not_space_ws (w : str) :
  Forall (fun x => isspace x = true) w -> filter not_space w = [].
Proof.
  induction 1 as [|x w Hx _ IH]; [reflexivity|].
  simpl. unfold not_space at 1. now rewrite Hx.
Qed.

Section KeepsText.

Variable p : Re.pattern.
Variable repl : str.

Hypothesis consumes : forall s rest,
    Re.match_here p s = Some rest ->
    (length rest < length s /\ length rest + length repl <= length s)%nat.
Hypothesis space_only :
  Forall (fun it => forall x, fst it x = true -> isspace x = true) p.
Hypothesis repl_space : Forall (fun x => isspace x = true) repl.

(** A substitution of whitespace for whitespace keeps the other characters. *)
Lemma sub_keeps_text (s : str) :
  filter not_space (Re.sub p repl s) = filter not_space s.
Proof.
  enough (H : forall n t, (length t <= n)%nat ->
                          filter not_space (Re.sub p repl t) = filter not_space t)
    by (apply (H (length s)); lia).
  clear s. induction n as [|n IH]; intros s Hle.
  - destruct s; [|simpl in Hle; lia]. now rewrite (sub_nil _ _ consumes).
  - destruct s as [|x s]; [now rewrite (sub_nil _ _ consumes)|].
    destruct (Re.match_here p (x :: s)) as [rest|] eqn:Hm.
    + destruct (consumes _ _ Hm) as [Hlt _].
      rewrite (sub_match _ _ _ _ Hm Hlt), filter_app.
      rewrite (filter_not_space_ws repl repl_space). simpl app.
      destruct (match_here_prefix _ p space_only _ _ Hm) as (m & Hs & Hmws).
      rewrite Hs, filter_app, (filter_not_space_ws m Hmws). simpl app.
      apply IH. simpl in Hle, Hlt. lia.
    + rewrite (sub_nomatch _ _ _ _ Hm). simpl.
      rewrite IH by (simpl in Hle; lia). reflexivity.
Qed.

End KeepsText.

Lemma lstrip_keeps_text (s : str) :
  filter not_space (lstrip s) = filter not_space s.
Proof.
  destruct (lstrip_spec s) as (w & Hs & Hw).
  rewrite Hs at 2. now rewrite filter_app, (filter_not_space_ws w Hw).
Qed.

Lemma filter_rev {A} (f : A -> bool) (l : list A) :
  filter f (rev l) = rev (filter f l).
Proof.
  induction l as [|x l IH]; [reflexivity|].
  simpl. rewrite filter_app, IH. simpl. destruct (f x); simpl.
  - reflexivity.
  - now rewrite app_nil_r.
Qed.

Lemma rstrip_keeps_text (s : str) :
  filter not_space (rstrip s) = filter not_space s.
Proof.
  unfold rstrip. rewrite filter_rev, lstrip_keeps_text, filter_rev.
  apply rev_involutive.
Qed.

Lemma clean_text_filter (x : str) :
  filter not_space (clean_text x) = filter not_space x.
Proof.
  unfold clean_text, strip.
  rewrite rstrip_keeps_text, lstrip_keeps_text.
  rewrite (sub_keeps_text _ _ blank_lines_consumes blank_lines_space_only)
    by (now repeat constructor).
  apply (sub_keeps_text _ _ blanks_consumes blanks_space_only).
  now repeat constructor.
Qed.

(** X1.  [clean_text] only touches whitespace: the other characters of the text
    are all kept, in their order. *)
Theorem clean_text_keeps_text (x : str) :
  filter not_space (clean_text x) = filter not_space x.
Proof. apply clean_text_filter. Qed.

(** ** No whitespace at the ends *)

Lemma rstrip_last (s : str) (c : char) :
  hd_error (rev (rstrip s)) = Some c -> isspace c = false.
Proof.
  unfold rstrip. rewrite rev_involutive.
  destruct (lstrip (rev s)) as [|d r] eqn:E; [discriminate|].
  intros [= <-]. eapply lstrip_head, E.
Qed.

Lemma strip_first (s : str) (c : char) :
  hd_error (strip s) = Some c -> isspace c = false.
Proof.
  unfold strip. destruct (lstrip s) as [|d r] eqn:E; [discriminate|].
  pose proof (lstrip_head s d r E) as Hd.
  rewrite rstrip_cons by assumption. now intros [= <-].
Qed.

(** X2.  [clean_text] returns a text without whitespace at either end. *)
Theorem clean_text_stripped (x : str) (c : char) :
  hd_error (clean_text x) = Some c \/ hd_error (rev (clean_text x)) = Some c ->
  isspace c = false.
Proof.
  unfold clean_text. intros [H | H].
  - eapply strip_first, H.
  - unfold strip in H. eapply rstrip_last, H.
Qed.

Lemma clean_text_stripped_witness : isspace 97%N = false.
Proof.
  apply (clean_text_stripped (lit "  a b  ") 97%N). left. reflexivity.
Defined.

Lemma all_space_filter (s : str) :
  filter not_space s = [] -> Forall (fun x => isspace x = true) s.
Proof.
  induction s as [|x s IH]; [constructor|].
  simpl. unfold not_space at 1. destruct (isspace x) eqn:Hx; simpl.
  - intros H. constructor; auto.
  - discriminate.
Qed.

(** X5.  A text of whitespace only is cleaned to the empty string. *)
Theorem clean_text_blank (x : str) :
  Forall (fun c => isspace c = true) x -> clean_text x = [].
Proof.
  intros Hx.
  destruct (clean_text x) as [|c r] eqn:E; [reflexivity|].
  assert (Hc : isspace c = false).
  { apply (strip_first (Re.sub BLANK_LINES [NL; NL] (Re.sub BLANKS [SPACE] x))).
    fold (clean_text x). now rewrite E. }
  assert (Hf : filter not_space (c :: r) = []).
  { rewrite <- E, clean_text_filter. now apply filter_not_space_ws. }
  simpl in Hf. unfold not_space at 1 in Hf. rewrite Hc in Hf. discriminate.
Qed.

Lemma clean_text_blank_witness : clean_text [SPACE; TAB; NL; NL; SPACE] = [].
Proof.
  apply (clean_text_blank [SPACE; TAB; NL; NL; SPACE]).
  repeat constructor.
Defined.

Lemma star_some_total (cls : char -> bool) (s : str) :
  exists r, Re.star cls Some s = Some r /\ (length r <= length s)%nat.
Proof.
  induction s as [|x s (r & Hr & Hl)]; cbn [Re.star].
  - now exists [].
  - destruct (cls x).
    + rewrite Hr. exists r. split; [reflexivity | simpl; lia].
    + exists (x :: s). split; [reflexivity | lia].
Qed.

Lemma suffix_same_length {A} (m r s : list A) :
  s = m ++ r -> length r = length s -> r = s.
Proof.
  intros -> H. rewrite length_app in H.
  destruct m; [reflexivity | simpl in H; lia].
Qed.

(** ** Runs of blanks *)

(** A text that [[ \t]+ -> " "] leaves unchanged stays so without its first
    character. *)
Lemma fixed_blanks_tail (x : char) (s : str) :
  Re.sub BLANKS [SPACE] (x :: s) = x :: s -> Re.sub BLANKS [SPACE] s = s.
Proof.
  intros Hfix.
  destruct (Re.match_here BLANKS (x :: s)) as [r|] eqn:Hm.
  - destruct (blanks_consumes _ _ Hm) as [Hlt _].
    rewrite (sub_match _ _ _ _ Hm Hlt) in Hfix. simpl in Hfix.
    injection Hfix as _ Hr.
    pose proof (sub_length _ _ blanks_consumes r) as Hlen.
    rewrite Hr in Hlen. simpl in Hlt.
    destruct (match_here_prefix (fun _ => True) BLANKS) with (s := x :: s) (r := r)
      as (m & Hs & _); [repeat constructor | assumption|].
    assert (Hrs : r = s).
    { destruct m as [|y m]; [simpl in Hs; subst r; simpl in Hlt; lia|].
      simpl in Hs. injection Hs as _ Hs.
      apply (suffix_same_length m r s Hs). lia. }
    now rewrite Hrs in Hr.
  - rewrite (sub_nomatch _ _ _ _ Hm) in Hfix. now injection Hfix.
Qed.

Lemma fixed_blanks_suffix (a t : str) :
  Re.sub BLANKS [SPACE] (a ++ t) = a ++ t -> Re.sub BLANKS [SPACE] t = t.
Proof.
  induction a as [|x a IH]; [trivial|].
  intros H. apply IH. eapply fixed_blanks_tail, H.
Qed.

Lemma blanks_unfold (x : char) (s : str) :
  Re.match_here BLANKS (x :: s)
  = if is_blank x then Re.star is_blank Some s else None.
Proof. reflexivity. Qed.

Lemma fixed_blanks_head (c : char) (b : str) :
  Re.sub BLANKS [SPACE] (c :: b) = c :: b ->
  is_blank c = true ->
  c = SPACE /\ match b with [] => True | d :: _ => is_blank d = false end.
Proof.
  intros Hfix Hc.
  assert (Hm : exists r, Re.match_here BLANKS (c :: b) = Some r
                         /\ (length r <= length b)%nat
                         /\ match b with
                            | [] => True
                            | d :: b' => is_blank d = true ->
                                         (length r <= length b')%nat
                            end).
  { rewrite blanks_unfold, Hc.
    destruct b as [|d b'].
    - exists []. now repeat split.
    - cbn [Re.star]. destruct (is_blank d) eqn:Hd.
      + destruct (star_some_total is_blank b') as (r & Hr & Hl).
        rewrite Hr. exists r. repeat split; [simpl; lia | auto].
      + exists (d :: b'). repeat split; [lia | discriminate]. }
  destruct Hm as (r & Hm & Hl & Hd).
  rewrite (sub_match _ _ _ _ Hm) in Hfix by (simpl; lia).
  simpl in Hfix. injection Hfix as Hc' Hr. split; [now symmetry|].
  destruct b as [|d b']; [exact I|].
  destruct (is_blank d) eqn:E; [|reflexivity].
  specialize (Hd eq_refl).
  pose proof (sub_length _ _ blanks_consumes r) as Hlen.
  rewrite Hr in Hlen. simpl in Hlen. lia.
Qed.

Lemma clean_text_fixed_blanks (x : str) :
  Re.sub BLANKS [SPACE] (clean_text x) = clean_text x.
Proof. apply clean_text_fixed. Qed.

(** X3.  [clean_text] returns a text without tabs and without two blanks in a
    row. *)
Theorem clean_text_single_spaces (x : str) :
  ~ In TAB (clean_text x)
  /\ forall a c d b,
       clean_text x = a ++ c :: d :: b ->
       is_blank c = true -> is_blank d = false.
Proof.
  pose proof (clean_text_fixed_blanks x) as Hfix. split.
  - intros Hin. apply in_split in Hin. destruct Hin as (a & b & Hab).
    rewrite Hab in Hfix. apply fixed_blanks_suffix in Hfix.
    destruct (fixed_blanks_head TAB b Hfix eq_refl) as [Habs _].
    discriminate Habs.
  - intros a c d b Hab Hc. rewrite Hab in Hfix.
    apply fixed_blanks_suffix in Hfix.
    now destruct (fixed_blanks_head c (d :: b) Hfix Hc) as [_ Hd].
Qed.

Lemma clean_text_single_spaces_witness :
  ~ In TAB (clean_text (lit "a" ++ [TAB; SPACE] ++ lit "b"))
  /\ is_blank 98%N = false.
Proof.
  destruct (clean_text_single_spaces (lit "a" ++ [TAB; SPACE] ++ lit "b"))
    as [Htab Hrun].
  split; [exact Htab|].
  apply (Hrun (lit "a") SPACE 98%N []); reflexivity.
Defined.

(** ** Blank lines *)

Lemma star_newlines_at_nl (b : str) :
  exists r, Re.star isspace (Re.match_here NEWLINES) (NL :: b) = Some r
            /\ (length r <= length b)%nat.
Proof.
  cbn [Re.star]. change (isspace NL) with true. cbv iota.
  destruct (Re.star isspace (Re.match_here NEWLINES) b) as [r|] eqn:Hs.
  - exists r. split; [reflexivity|].
    pose proof (star_length isspace _ 1 newlines_consumes b r Hs). lia.
  - rewrite newlines_unfold. change (is_nl NL) with true. cbv iota.
    apply star_some_total.
Qed.

Lemma star_through_space (k : str -> option str) (w s : str) (r : str) :
  Forall (fun x => isspace x = true) w ->
  Re.star isspace k s = Some r ->
  Re.star isspace k (w ++ s) = Some r.
Proof.
  intros Hw Hs. induction Hw as [|x w Hx _ IH]; [exact Hs|].
  cbn [app Re.star]. now rewrite Hx, IH.
Qed.

(** A text that [\n\s*\n+ -> "\n\n"] leaves unchanged stays so without its
    first character. *)
Lemma fixed_blank_lines_tail (x : char) (s : str) :
  Re.sub BLANK_LINES [NL; NL] (x :: s) = x :: s ->
  Re.sub BLANK_LINES [NL; NL] s = s.
Proof.
  intros Hfix.
  destruct (Re.match_here BLANK_LINES (x :: s)) as [r|] eqn:Hm.
  - destruct (blank_lines_consumes _ _ Hm) as [Hlt Hcons].
    rewrite (sub_match _ _ _ _ Hm Hlt) in Hfix. simpl in Hfix.
    injection Hfix as Hx Hs. subst x.
    pose proof (sub_length _ _ blank_lines_consumes r) as Hlen.
    destruct s as [|y s2]; [discriminate|].
    injection Hs as Hy Hr. subst y.
    rewrite Hr in Hlen. simpl in Hcons.
    destruct (match_here_prefix (fun _ => True) BLANK_LINES)
      with (s := NL :: NL :: s2) (r := r) as (m & Hsplit & _);
      [repeat constructor | assumption|].
    assert (Hrs : r = s2).
    { destruct m as [|y1 [|y2 m]].
      - simpl in Hsplit. subst r. simpl in Hcons. lia.
      - simpl in Hsplit. injection Hsplit as _ Hsplit. subst r.
        simpl in Hcons. lia.
      - simpl in Hsplit. injection Hsplit as _ _ Hsplit.
        apply (suffix_same_length m r s2 Hsplit). lia. }
    subst r.
    assert (Hnone : Re.match_here BLANK_LINES (NL :: s2) = None).
    { rewrite blank_lines_unfold in Hm |- *.
      change (is_nl NL) with true in *. cbv iota in *.
      cbn [Re.star] in Hm. change (isspace NL) with true in Hm. cbv iota in Hm.
      destruct (Re.star isspace (Re.match_here NEWLINES) s2) as [r'|] eqn:Hs2;
        [|reflexivity].
      injection Hm as ->.
      pose proof (star_length isspace _ 1 newlines_consumes s2 s2 Hs2). lia. }
    rewrite (sub_nomatch _ _ _ _ Hnone). now rewrite Hr.
  - rewrite (sub_nomatch _ _ _ _ Hm) in Hfix. now injection Hfix.
Qed.

Lemma fixed_blank_lines_suffix (a t : str) :
  Re.sub BLANK_LINES [NL; NL] (a ++ t) = a ++ t ->
  Re.sub BLANK_LINES [NL; NL] t = t.
Proof.
  induction a as [|x a IH]; [trivial|].
  intros H. apply IH. eapply fixed_blank_lines_tail, H.
Qed.

Lemma clean_text_fixed_blank_lines (x : str) :
  Re.sub BLANK_LINES [NL; NL] (clean_text x) = clean_text x.
Proof. apply clean_text_fixed. Qed.

(** X4.  In what [clean_text] returns, two newlines with only whitespace between
    them are adjacent: a blank line is empty, and no two blank lines follow
    each other. *)
Theorem clean_text_blank_lines (x : str) (a w b : str) :
  clean_text x = a ++ NL :: w ++ NL :: b ->
  Forall (fun c => isspace c = true) w ->
  w = [].
Proof.
  intros Hab Hw. pose proof (clean_text_fixed_blank_lines x) as Hfix.
  rewrite Hab in Hfix. apply fixed_blank_lines_suffix in Hfix.
  destruct (star_newlines_at_nl b) as (r & Hr & Hl).
  assert (Hm : Re.match_here BLANK_LINES (NL :: w ++ NL :: b) = Some r).
  { rewrite blank_lines_unfold. change (is_nl NL) with true. cbv iota.
    now apply star_through_space. }
  rewrite (sub_match _ _ _ _ Hm) in Hfix
    by (simpl; rewrite length_app; simpl; lia).
  pose proof (sub_length _ _ blank_lines_consumes r) as Hlen.
  assert (Hlens : length ([NL; NL] ++ Re.sub BLANK_LINES [NL; NL] r)
                  = length (NL :: w ++ NL :: b)) by now rewrite Hfix.
  simpl in Hlens. rewrite length_app in Hlens. simpl in Hlens.
  destruct w; [reflexivity | simpl in Hlens; lia].
Qed.

Lemma clean_text_blank_lines_witness :
  clean_text (lit "a" ++ [NL; SPACE; NL; NL] ++ lit "b")
  = lit "a" ++ NL :: [] ++ NL :: lit "b"
  /\ @nil char = [].
Proof.
  split; [reflexivity|].
  apply (clean_text_blank_lines (lit "a" ++ [NL; SPACE; NL; NL] ++ lit "b")
           (lit "a") [] (lit "b")).
  - reflexivity.
  - constructor.
Defined.

(* ================================================================== *)
(** * The sizes of the chunks *)
(* ================================================================== *)

Section ChunkSizes.

Variable n : Z.
Hypothesis n_pos : 0 < n.
Variable text : str.

Lemma range_from_nonempty (fuel : nat) (i stop : Z) :
  range_from fuel i stop n <> [] -> i < stop.
Proof.
  intros H. destruct (Z.lt_ge_cases i stop) as [Hlt|Hge]; [assumption|].
  now rewrite (range_from_done n fuel i stop Hge) in H.
Qed.

Lemma pieces_sizes (fuel : nat) (i : Z) :
  0 <= i ->
  Forall (fun c => 1 <= len c)
         (map (fun i => slice text i (i + n)) (range_from fuel i (len text) n))
  /\ Forall (fun c => len c = n)
            (removelast (map (fun i => slice text i (i + n))
                             (range_from fuel i (len text) n))).
Proof.
  revert i. induction fuel as [|fuel IH]; intros i Hi.
  - simpl. split; constructor.
  - cbn [range_from]. destruct (Z.ltb_spec i (len text)) as [Hlt|Hge].
    + destruct (IH (i + n) ltac:(lia)) as [IH1 IH2].
      cbn [map]. split.
      * constructor; [|assumption]. rewrite len_slice by lia. lia.
      * destruct (range_from fuel (i + n) (len text) n) as [|j js] eqn:E.
        { simpl. constructor. }
        assert (Hnext : i + n < len text).
        { apply (range_from_nonempty fuel). rewrite E. discriminate. }
        cbn [map] in *. cbn [removelast].
        constructor; [|exact IH2]. rewrite len_slice by lia. lia.
    + simpl. split; constructor.
Qed.

End ChunkSizes.

(** X12.  No chunk is empty, and every chunk but the last one has exactly 4000
    characters. *)
Theorem chunks_full_but_last (text : str) :
  Forall (fun c => 1 <= len c) (chunks text)
  /\ Forall (fun c => len c = CHUNK_SIZE) (removelast (chunks text)).
Proof.
  unfold chunks, chunks_of, range.
  apply pieces_sizes; [reflexivity | lia].
Qed.

(* ================================================================== *)
(** * The completion client: results and traces *)
(* ================================================================== *)

Lemma failed_attempts_S (transport : nat -> Request -> Response)
    (req : Request) (n0 k : nat) :
  failed_attempts transport req n0 (S k)
  = [Post req; StError (failure_report (transport n0 req)); Sleep 2]
    ++ failed_attempts transport req (S n0) k.
Proof.
  unfold failed_attempts. rewrite <- cons_seq. cbn [flat_map].
  rewrite Nat.add_0_r. f_equal.
  rewrite <- seq_shift, flat_map_concat_map, map_map, <- flat_map_concat_map.
  apply flat_map_ext. intros j. now rewrite Nat.add_succ_r.
Qed.

Section ClientTraces.

Variables key mdl : str.
Variable transport : nat -> Request -> Response.

Lemma posted_length_after_failure (tr : Trace) (req : Request) (m : Message) :
  length (posted (tr ++ [Post req; StError m; Sleep 2]))
  = S (length (posted tr)).
Proof. rewrite posted_after_failure, length_app. simpl. lia. Qed.

(** The loop stops at the first usable answer. *)
Lemma attempts_until_success (req : Request) (raw c : str) (k : nat) :
  forall (n : nat) (tr : Trace),
    (k < n)%nat ->
    (forall j, (j < k)%nat ->
               succeeds (transport (length (posted tr) + j)%nat req) = false) ->
    transport (length (posted tr) + k)%nat req = Http 200 raw (Content c) ->
    attempts transport n req tr
    = ((Some (strip c), None),
       tr ++ failed_attempts transport req (length (posted tr)) k ++ [Post req]).
Proof.
  induction k as [|k IH]; intros n tr Hn Hfail Hok.
  - destruct n as [|n]; [lia|]. rewrite Nat.add_0_r in Hok.
    now rewrite (attempts_success transport n req tr raw c Hok).
  - destruct n as [|n]; [lia|].
    rewrite attempts_failure
      by (specialize (Hfail 0%nat); rewrite Nat.add_0_r in Hfail;
          apply Hfail; lia).
    set (tr1 := tr ++ _).
    assert (Hlen : length (posted tr1) = S (length (posted tr)))
      by apply posted_length_after_failure.
    rewrite (IH n tr1).
    + rewrite Hlen, failed_attempts_S. unfold tr1.
      now rewrite <- !app_assoc.
    + lia.
    + intros j Hj. rewrite Hlen.
      replace (S (length (posted tr)) + j)%nat
        with (length (posted tr) + S j)%nat by lia.
      apply Hfail. lia.
    + rewrite Hlen.
      replace (S (length (posted tr)) + k)%nat
        with (length (posted tr) + S k)%nat by lia.
      exact Hok.
Qed.

(** Without a usable answer the loop runs to its end. *)
Lemma attempts_all_fail (req : Request) (n : nat) :
  forall (tr : Trace),
    (forall j, (j < n)%nat ->
               succeeds (transport (length (posted tr) + j)%nat req) = false) ->
    attempts transport n req tr
    = ((None, Some FAILED_AFTER_RETRIES),
       tr ++ failed_attempts transport req (length (posted tr)) n).
Proof.
  induction n as [|n IH]; intros tr Hfail.
  - simpl. unfold ret, failed_attempts. simpl. now rewrite app_nil_r.
  - rewrite attempts_failure
      by (specialize (Hfail 0%nat); rewrite Nat.add_0_r in Hfail;
          apply Hfail; lia).
    set (tr1 := tr ++ _).
    assert (Hlen : length (posted tr1) = S (length (posted tr)))
      by apply posted_length_after_failure.
    rewrite (IH tr1).
    + rewrite Hlen, failed_attempts_S. unfold tr1.
      now rewrite <- !app_assoc.
    + intros j Hj. rewrite Hlen.
      replace (S (length (posted tr)) + j)%nat
        with (length (posted tr) + S j)%nat by lia.
      apply Hfail. lia.
Qed.

Lemma attempts_shape (req : Request) (n : nat) :
  forall tr,
    fst (attempts transport n req tr) = (None, Some FAILED_AFTER_RETRIES)
    \/ exists c, fst (attempts transport n req tr) = (Some (strip c), None).
Proof.
  induction n as [|n IH]; intros tr; [now left|].
  destruct (succeeds (transport (length (posted tr)) req)) eqn:Hs.
  - destruct (transport (length (posted tr)) req) as [st raw [c|e]|e] eqn:Ht;
      simpl in Hs; try discriminate.
    apply Z.eqb_eq in Hs. subst st. right. exists c.
    now rewrite (attempts_success transport n req tr raw c Ht).
  - rewrite attempts_failure by assumption. apply IH.
Qed.

End ClientTraces.

(** X8.  [call_groq] returns exactly one of a content and a reason.  The content
    is a stripped string; the reason is "Missing GROQ_API_KEY" when no key
    is configured and "Failed after retries" otherwise. *)
Theorem call_groq_result_shape
    (key mdl : str) (transport : nat -> Request -> Response)
    (prompt : str) (t : Q) (m : Z) (tr : Trace) :
  (key = []
   /\ fst (call_groq key mdl transport prompt t m tr) = (None, Some MISSING_KEY))
  \/ (key <> []
      /\ fst (call_groq key mdl transport prompt t m tr)
         = (None, Some FAILED_AFTER_RETRIES))
  \/ (key <> []
      /\ exists c,
           fst (call_groq key mdl transport prompt t m tr) = (Some c, None)
           /\ strip c = c).
Proof.
  destruct key as [|k0 key]; [left; now split|].
  right. rewrite call_groq_with_key by discriminate.
  destruct (attempts_shape transport
              (request_for (k0 :: key) mdl prompt t m) 3 tr) as [H | (c & H)].
  - left. split; [discriminate | exact H].
  - right. split; [discriminate|]. exists (strip c).
    split; [exact H | apply strip_idempotent].
Qed.

(** X9.  One call of [call_groq] sends at most three requests, all of them the
    same: the configured key and model, the prompt, the temperature and the
    token budget it was given. *)
Theorem call_groq_at_most_three_requests
    (key mdl : str) (transport : nat -> Request -> Response)
    (prompt : str) (t : Q) (m : Z) (tr : Trace) :
  exists k, (k <= 3)%nat
    /\ posted (snd (call_groq key mdl transport prompt t m tr))
       = posted tr ++ repeat (request_for key mdl prompt t m) k.
Proof. apply call_groq_posted. Qed.

(** X10.  With a key, [call_groq] returns the stripped content of the first usable
    answer among the first three; each attempt before it (a status other
    than 200, an exception, a 200 without a message content) leaves the
    request, an error message and a pause of two seconds in the trace, and
    nothing follows the successful request. *)
Theorem call_groq_first_usable_answer
    (key mdl : str) (transport : nat -> Request -> Response)
    (prompt : str) (t : Q) (m : Z) (tr : Trace) (raw c : str) (k : nat) :
  key <> [] ->
  (k < 3)%nat ->
  (forall j, (j < k)%nat ->
             succeeds (transport (length (posted tr) + j)%nat
                                 (request_for key mdl prompt t m)) = false) ->
  transport (length (posted tr) + k)%nat (request_for key mdl prompt t m)
  = Http 200 raw (Content c) ->
  call_groq key mdl transport prompt t m tr
  = ((Some (strip c), None),
     tr ++ failed_attempts transport (request_for key mdl prompt t m)
                           (length (posted tr)) k
        ++ [Post (request_for key mdl prompt t m)]).
Proof.
  intros Hkey Hk Hfail Hok. rewrite call_groq_with_key by assumption.
  now apply (attempts_until_success transport _ raw c k).
Qed.

Lemma call_groq_first_usable_answer_witness :
  call_groq (lit "k") [] (second_try (lit " done ")) (lit "p") 0 400 []
  = ((Some (strip (lit " done ")), None),
     [] ++ failed_attempts (second_try (lit " done "))
             (request_for (lit "k") [] (lit "p") 0 400) 0 1
        ++ [Post (request_for (lit "k") [] (lit "p") 0 400)]).
Proof.
  apply (call_groq_first_usable_answer (lit "k") [] (second_try (lit " done "))
           (lit "p") 0 400 [] [] (lit " done ") 1).
  - discriminate.
  - lia.
  - intros j Hj. assert (j = 0%nat) as -> by lia. reflexivity.
  - reflexivity.
Defined.

(** X11.  With a key and no usable answer among the first three, [call_groq]
    returns the reason "Failed after retries" after exactly three rounds of
    request, error message and pause: it also pauses after the last
    attempt. *)
Theorem call_groq_gives_up
    (key mdl : str) (transport : nat -> Request -> Response)
    (prompt : str) (t : Q) (m : Z) (tr : Trace) :
  key <> [] ->
  (forall j, (j < 3)%nat ->
             succeeds (transport (length (posted tr) + j)%nat
                                 (request_for key mdl prompt t m)) = false) ->
  call_groq key mdl transport prompt t m tr
  = ((None, Some FAILED_AFTER_RETRIES),
     tr ++ failed_attempts transport (request_for key mdl prompt t m)
                           (length (posted tr)) 3).
Proof.
  intros Hkey Hfail. rewrite call_groq_with_key by assumption.
  now apply attempts_all_fail.
Qed.

Lemma call_groq_gives_up_witness :
  call_groq (lit "k") [] always_raises (lit "p") 0 400 []
  = ((None, Some FAILED_AFTER_RETRIES),
     [] ++ failed_attempts always_raises
             (request_for (lit "k") [] (lit "p") 0 400) 0 3).
Proof.
  apply (call_groq_gives_up (lit "k") [] always_raises (lit "p") 0 400 []).
  - discriminate.
  - intros j Hj. reflexivity.
Defined.

(* ================================================================== *)
(** * The two workflows *)
(* ================================================================== *)

Lemma or_fallback_nonempty (content : option str) (fallback : str) :
  fallback <> [] -> or_fallback content fallback <> [].
Proof.
  intros Hf. destruct content as [[|c s]|]; simpl; try assumption. discriminate.
Qed.

Lemma or_fallback_some (c fallback : str) :
  c <> [] -> or_fallback (Some c) fallback = c.
Proof. intros H. simpl. apply truthy_true in H. now rewrite H. Qed.

Lemma join_nonempty (sep p : str) (ps : list str) :
  p <> [] -> join sep (p :: ps) <> [].
Proof.
  intros Hp. destruct ps; simpl; [assumption|].
  destruct p; [contradiction | discriminate].
Qed.

Lemma join_singleton (sep p : str) : join sep [p] = p.
Proof. reflexivity. Qed.

Lemma chunks_nonempty (text : str) : text <> [] -> chunks text <> [].
Proof.
  intros Ht Hc. apply Ht.
  rewrite <- (chunks_of_concat CHUNK_SIZE eq_refl text).
  fold (chunks text). now rewrite Hc.
Qed.

Lemma long_text_nonempty (text : str) : SPLIT_THRESHOLD < len text -> text <> [].
Proof. intros H ->. unfold len, SPLIT_THRESHOLD in H. simpl in H. lia. Qed.

Section Workflows.

Variables key mdl : str.
Variable transport : nat -> Request -> Response.

Lemma groq_fill_missing_short (text : str) (tr : Trace) :
  len text <= SPLIT_THRESHOLD ->
  groq_fill_missing key mdl transport text tr
  = call_groq_chunk key mdl transport text tr.
Proof.
  intros H. unfold groq_fill_missing.
  now destruct (Z.ltb_spec SPLIT_THRESHOLD (len text)); [lia|].
Qed.

Lemma groq_fill_missing_split (text : str) (tr : Trace) :
  SPLIT_THRESHOLD < len text ->
  groq_fill_missing key mdl transport text tr
  = (join [NL] (fst (fill_loop key mdl transport (len (chunks text)) 1
                       (chunks text) [] (tr ++ [StWarning TextTooLarge]))),
     snd (fill_loop key mdl transport (len (chunks text)) 1
            (chunks text) [] (tr ++ [StWarning TextTooLarge]))).
Proof.
  intros H. unfold groq_fill_missing.
  destruct (Z.ltb_spec SPLIT_THRESHOLD (len text)); [|lia].
  unfold bind, st_warning, emit, ret.
  now destruct (fill_loop key mdl transport (len (chunks text)) 1
                  (chunks text) [] (tr ++ [StWarning TextTooLarge])).
Qed.

Lemma call_groq_chunk_eq (chunk : str) (tr : Trace) :
  call_groq_chunk key mdl transport chunk tr
  = (fill_output (fst (call_groq key mdl transport (fill_prompt chunk)
                                 (2 # 10) 1300 tr)),
     snd (call_groq key mdl transport (fill_prompt chunk) (2 # 10) 1300 tr)).
Proof.
  unfold call_groq_chunk, bind, ret, fill_output.
  now destruct (call_groq key mdl transport (fill_prompt chunk) (2 # 10) 1300 tr).
Qed.

Lemma groq_answer_question_eq (filled question : str) (tr : Trace) :
  groq_answer_question key mdl transport filled question tr
  = (or_fallback (fst (fst (call_groq key mdl transport
                              (answer_prompt filled question) 0 400 tr)))
                 ANSWER_FALLBACK,
     snd (call_groq key mdl transport (answer_prompt filled question) 0 400 tr)).
Proof.
  unfold groq_answer_question, bind, ret.
  now destruct (call_groq key mdl transport (answer_prompt filled question)
                  0 400 tr).
Qed.

Lemma fill_loop_cons (total idx : Z) (chunk : str) (todo filled_chunks : list str)
    (tr : Trace) :
  fill_loop key mdl transport total idx (chunk :: todo) filled_chunks tr
  = fill_loop key mdl transport total (idx + 1) todo
      (filled_chunks
       ++ [fill_output
             (fst (call_groq key mdl transport (fill_prompt chunk) (2 # 10) 1300
                     (tr ++ [StInfo (FillingChunk idx total)])))])
      (snd (call_groq key mdl transport (fill_prompt chunk) (2 # 10) 1300
              (tr ++ [StInfo (FillingChunk idx total)]))).
Proof.
  cbn [fill_loop]. unfold bind, st_info, emit, call_groq_chunk, bind, ret.
  unfold fill_output.
  now destruct (call_groq key mdl transport (fill_prompt chunk) (2 # 10) 1300
                  (tr ++ [StInfo (FillingChunk idx total)])).
Qed.

Lemma fill_output_nonempty (r : option str * option str) : fill_output r <> [].
Proof. apply or_fallback_nonempty. discriminate. Qed.

Lemma groq_fill_missing_nonempty (text : str) (tr : Trace) :
  fst (groq_fill_missing key mdl transport text tr) <> [].
Proof.
  destruct (Z.lt_ge_cases SPLIT_THRESHOLD (len text)) as [Hlong|Hshort].
  - destruct (fill_loop_in_order key mdl transport (len (chunks text))
                (chunks text) 1 [] (tr ++ [StWarning TextTooLarge]))
      as (results & ks & tr' & Hloop & _ & Hlen & _).
    rewrite groq_fill_missing_split, Hloop by assumption. simpl.
    destruct results as [|r results].
    + pose proof (chunks_nonempty text (long_text_nonempty text Hlong)) as Hne.
      destruct (chunks text); [contradiction | discriminate].
    + apply join_nonempty, fill_output_nonempty.
  - rewrite groq_fill_missing_short, call_groq_chunk_eq by lia.
    apply fill_output_nonempty.
Qed.

Lemma requests_of_length (todo : list str) :
  forall ks, length ks = length todo ->
             Forall (fun k => (k <= 3)%nat) ks ->
             (length (requests_of key mdl todo ks) <= 3 * length todo)%nat.
Proof.
  unfold requests_of.
  induction todo as [|chunk todo IH]; intros [|k ks] Hlen Hks;
    simpl in *; try lia.
  inversion Hks; subst. rewrite length_app, repeat_length.
  specialize (IH ks ltac:(lia) ltac:(assumption)). lia.
Qed.

(** Where each piece is answered at once by a 200 with a non-blank
    content. *)
Lemma fill_loop_answered (answer : str -> str) (total : Z) (todo : list str) :
  key <> [] ->
  (forall n chunk, In chunk todo ->
      exists raw, transport n (fill_request key mdl chunk)
                  = Http 200 raw (Content (answer chunk))) ->
  (forall chunk, In chunk todo -> strip (answer chunk) <> []) ->
  forall (idx : Z) (filled_chunks : list str) (tr : Trace),
    fst (fill_loop key mdl transport total idx todo filled_chunks tr)
    = filled_chunks ++ map (fun chunk => strip (answer chunk)) todo
    /\ posted (snd (fill_loop key mdl transport total idx todo filled_chunks tr))
       = posted tr ++ map (fill_request key mdl) todo.
Proof.
  intros Hkey. induction todo as [|chunk todo IH]; intros Hans Hnb idx acc tr.
  - simpl. now rewrite !app_nil_r.
  - rewrite fill_loop_cons.
    set (tr0 := tr ++ [StInfo (FillingChunk idx total)]).
    destruct (Hans (length (posted tr0)) chunk (or_introl eq_refl)) as (raw & Hr).
    rewrite call_groq_with_key by assumption.
    fold (fill_request key mdl chunk).
    rewrite (attempts_success transport 2 _ tr0 raw _ Hr).
    cbn [fst snd]. unfold fill_output. cbn [fst].
    rewrite or_fallback_some by (apply Hnb; now left).
    destruct (IH (fun n c H => Hans n c (or_intror H))
                 (fun c H => Hnb c (or_intror H))
                 (idx + 1) (acc ++ [strip (answer chunk)])
                 (tr0 ++ [Post (fill_request key mdl chunk)])) as [H1 H2].
    split.
    + etransitivity; [exact H1|]. now rewrite <- app_assoc.
    + etransitivity; [exact H2|]. unfold tr0. rewrite !posted_app. simpl.
      now rewrite app_nil_r, <- app_assoc.
Qed.

End Workflows.

Lemma fill_loop_no_key (mdl : str) (transport : nat -> Request -> Response)
    (total : Z) (todo : list str) :
  forall (idx : Z) (filled_chunks : list str) (tr : Trace),
    fst (fill_loop [] mdl transport total idx todo filled_chunks tr)
    = filled_chunks ++ repeat FILL_FALLBACK (length todo)
    /\ posted (snd (fill_loop [] mdl transport total idx todo filled_chunks tr))
       = posted tr.
Proof.
  induction todo as [|chunk todo IH]; intros idx acc tr.
  - simpl. now rewrite app_nil_r.
  - rewrite fill_loop_cons. cbn [call_groq truthy negb ret fst snd].
    unfold fill_output. cbn [fst or_fallback].
    destruct (IH (idx + 1) (acc ++ [FILL_FALLBACK])
                (tr ++ [StInfo (FillingChunk idx total)])) as [H1 H2].
    split.
    + etransitivity; [exact H1|]. now rewrite <- app_assoc.
    + etransitivity; [exact H2|]. rewrite posted_app. simpl.
      now rewrite app_nil_r.
Qed.

(** X13.  Neither workflow ever returns the empty string, whatever the text, the
    configuration and the answers of the endpoint. *)
Theorem workflows_never_return_empty
    (key mdl : str) (transport : nat -> Request -> Response)
    (text question : str) (tr : Trace) :
  fst (groq_fill_missing key mdl transport text tr) <> []
  /\ fst (groq_answer_question key mdl transport text question tr) <> [].
Proof.
  split; [apply groq_fill_missing_nonempty|].
  rewrite groq_answer_question_eq. apply or_fallback_nonempty. discriminate.
Qed.

(** X14.  Without an API key nothing is sent: [groq_fill_missing] returns
    "AI filling failed." once for every piece of the text, and
    [groq_answer_question] returns "AI failed to answer." with the trace
    untouched. *)
Theorem workflows_without_key
    (mdl : str) (transport : nat -> Request -> Response)
    (text question : str) (tr : Trace) :
  fst (groq_fill_missing [] mdl transport text tr)
  = join [NL] (repeat FILL_FALLBACK (length (fill_inputs text)))
  /\ posted (snd (groq_fill_missing [] mdl transport text tr)) = posted tr
  /\ groq_answer_question [] mdl transport text question tr
     = (ANSWER_FALLBACK, tr).
Proof.
  split; [|split]; [| |reflexivity]; unfold fill_inputs;
    destruct (Z.ltb_spec SPLIT_THRESHOLD (len text)) as [Hlong|Hshort].
  - rewrite groq_fill_missing_split by assumption. cbn [fst].
    now destruct (fill_loop_no_key mdl transport (len (chunks text))
                    (chunks text) 1 [] (tr ++ [StWarning TextTooLarge]))
      as [-> _].
  - now rewrite groq_fill_missing_short by assumption.
  - rewrite groq_fill_missing_split by assumption. cbn [snd].
    destruct (fill_loop_no_key mdl transport (len (chunks text))
                (chunks text) 1 [] (tr ++ [StWarning TextTooLarge]))
      as [_ ->].
    rewrite posted_app. simpl. now rewrite app_nil_r.
  - now rewrite groq_fill_missing_short by assumption.
Qed.

(** X15.  [groq_fill_missing] sends at most three requests for every piece of the
    text. *)
Theorem groq_fill_missing_request_bound
    (key mdl : str) (transport : nat -> Request -> Response)
    (text : str) (tr : Trace) :
  (length (posted (snd (groq_fill_missing key mdl transport text tr)))
   <= length (posted tr) + 3 * length (fill_inputs text))%nat.
Proof.
  unfold fill_inputs.
  destruct (Z.ltb_spec SPLIT_THRESHOLD (len text)) as [Hlong|Hshort].
  - rewrite groq_fill_missing_split by assumption. cbn [snd].
    destruct (fill_loop_in_order key mdl transport (len (chunks text))
                (chunks text) 1 [] (tr ++ [StWarning TextTooLarge]))
      as (results & ks & tr' & Hloop & _ & _ & Hks & Hle & Hp).
    rewrite Hloop. cbn [snd]. rewrite Hp, posted_app, !length_app. simpl.
    pose proof (requests_of_length key mdl (chunks text) ks Hks Hle). lia.
  - rewrite groq_fill_missing_short, call_groq_chunk_eq by assumption.
    cbn [snd].
    destruct (call_groq_posted key mdl transport (fill_prompt text) (2 # 10)
                1300 tr) as (k & Hk & Hp).
    rewrite Hp, length_app, repeat_length. simpl. lia.
Qed.

(** X16.  When the endpoint answers the request of every piece at once with a 200
    whose content is not blank, the filled text is the stripped answers in
    the order of the pieces, joined by newlines, and exactly one request is
    sent for each piece, in that order. *)
Theorem groq_fill_missing_all_answered
    (key mdl : str) (transport : nat -> Request -> Response)
    (answer : str -> str) (text : str) (tr : Trace) :
  key <> [] ->
  (forall n chunk, In chunk (fill_inputs text) ->
      exists raw, transport n (fill_request key mdl chunk)
                  = Http 200 raw (Content (answer chunk))) ->
  (forall chunk, In chunk (fill_inputs text) -> strip (answer chunk) <> []) ->
  fst (groq_fill_missing key mdl transport text tr)
  = join [NL] (map (fun chunk => strip (answer chunk)) (fill_inputs text))
  /\ posted (snd (groq_fill_missing key mdl transport text tr))
     = posted tr ++ map (fill_request key mdl) (fill_inputs text).
Proof.
  unfold fill_inputs. intros Hkey Hans Hnb.
  destruct (Z.ltb_spec SPLIT_THRESHOLD (len text)) as [Hlong|Hshort].
  - rewrite groq_fill_missing_split by assumption. cbn [fst snd].
    destruct (fill_loop_answered key mdl transport answer (len (chunks text))
                (chunks text) Hkey Hans Hnb 1 []
                (tr ++ [StWarning TextTooLarge])) as [-> ->].
    split; [reflexivity|]. rewrite posted_app. simpl. now rewrite app_nil_r.
  - rewrite groq_fill_missing_short, call_groq_chunk_eq by assumption.
    destruct (Hans (length (posted tr)) text (or_introl eq_refl)) as (raw & Hr).
    rewrite call_groq_with_key by assumption.
    fold (fill_request key mdl text).
    rewrite (attempts_success transport 2 _ tr raw _ Hr).
    cbn [fst snd map]. unfold fill_output. cbn [fst join].
    rewrite or_fallback_some by (apply Hnb; now left).
    split; [reflexivity|]. now rewrite posted_app.
Qed.

Lemma groq_fill_missing_all_answered_witness :
  fst (groq_fill_missing (lit "k") [] (always_200 (lit " ok "))
         (repeat 97%N (Z.to_nat 8001)) [])
  = join [NL] (map (fun _ => strip (lit " ok "))
                   (fill_inputs (repeat 97%N (Z.to_nat 8001))))
  /\ posted (snd (groq_fill_missing (lit "k") [] (always_200 (lit " ok "))
                    (repeat 97%N (Z.to_nat 8001)) []))
     = posted [] ++ map (fill_request (lit "k") [])
                        (fill_inputs (repeat 97%N (Z.to_nat 8001))).
Proof.
  apply (groq_fill_missing_all_answered (lit "k") [] (always_200 (lit " ok "))
           (fun _ => lit " ok ") (repeat 97%N (Z.to_nat 8001)) []).
  - discriminate.
  - intros n chunk _. exists []. reflexivity.
  - intros chunk _. vm_compute. discriminate.
Defined.

(** X17.  [groq_answer_question] returns the stripped content of the first usable
    answer among the first three when that content is not blank: an answer
    such as "Not available in the form." comes back as it is. *)
Theorem groq_answer_question_returns_answer
    (key mdl : str) (transport : nat -> Request -> Response)
    (filled question : str) (tr : Trace) (raw c : str) (k : nat) :
  key <> [] ->
  (k < 3)%nat ->
  (forall j, (j < k)%nat ->
      succeeds (transport (length (posted tr) + j)%nat
                  (request_for key mdl (answer_prompt filled question) 0 400))
      = false) ->
  transport (length (posted tr) + k)%nat
    (request_for key mdl (answer_prompt filled question) 0 400)
  = Http 200 raw (Content c) ->
  strip c <> [] ->
  fst (groq_answer_question key mdl transport filled question tr) = strip c
  /\ posted (snd (groq_answer_question key mdl transport filled question tr))
     = posted tr
       ++ repeat (request_for key mdl (answer_prompt filled question) 0 400)
                 (S k).
Proof.
  intros Hkey Hk Hfail Hok Hnb. rewrite groq_answer_question_eq.
  rewrite call_groq_with_key by assumption.
  destruct (attempts_first_success transport _ raw c k 3 tr Hk Hfail Hok)
    as [Hres Hp].
  cbn [fst snd]. rewrite Hres, Hp. cbn [fst]. now rewrite or_fallback_some.
Qed.

Lemma groq_answer_question_returns_answer_witness :
  fst (groq_answer_question (lit "k") []
         (second_try (lit "Not available in the form."))
         (lit "Name: Ann") (lit "Age?") [])
  = strip (lit "Not available in the form.")
  /\ posted (snd (groq_answer_question (lit "k") []
                    (second_try (lit "Not available in the form."))
                    (lit "Name: Ann") (lit "Age?") []))
     = posted []
       ++ repeat (request_for (lit "k") []
                    (answer_prompt (lit "Name: Ann") (lit "Age?")) 0 400) 2.
Proof.
  apply (groq_answer_question_returns_answer (lit "k") []
           (second_try (lit "Not available in the form."))
           (lit "Name: Ann") (lit "Age?") [] []
           (lit "Not available in the form.") 1).
  - discriminate.
  - lia.
  - intros j Hj. assert (j = 0%nat) as -> by lia. reflexivity.
  - reflexivity.
  - vm_compute. discriminate.
Defined.

(* ================================================================== *)
(** * The PDF renderer: wrapping and the cursor *)
(* ================================================================== *)

Lemma heights_S (y : Z) (k : nat) :
  heights y (S k) = y :: heights (y - LINE_HEIGHT) k.
Proof.
  unfold heights. rewrite <- cons_seq. cbn [map]. f_equal; [lia|].
  rewrite <- seq_shift, map_map. apply map_ext. intros i. lia.
Qed.

Lemma combine_app_same {A B} (l1 l2 : list A) (m1 m2 : list B) :
  length l1 = length m1 ->
  combine (l1 ++ l2) (m1 ++ m2) = combine l1 m1 ++ combine l2 m2.
Proof.
  revert m1. induction l1 as [|x l1 IH]; intros [|y m1] H;
    simpl in *; try discriminate; [reflexivity|].
  f_equal. apply IH. lia.
Qed.

Lemma slice_to_firstn {A} (s : list A) (j : Z) :
  0 <= j -> slice_to s j = firstn (Z.to_nat j) s.
Proof.
  intros Hj. unfold slice_to. rewrite slice_firstn_skipn by lia.
  simpl skipn. f_equal. lia.
Qed.

Lemma slice_from_skipn {A} (s : list A) (i : Z) :
  0 <= i <= len s -> slice_from s i = skipn (Z.to_nat i) s.
Proof.
  intros Hi. unfold slice_from. rewrite slice_firstn_skipn by lia.
  apply firstn_all2. rewrite length_skipn. unfold len. lia.
Qed.

(** What the wrap loop does to a line: it draws segments of exactly 110
    characters at descending heights and leaves a rest that fits; segments
    and rest together are the line. *)
Lemma wrap_loop_spec (fuel : nat) :
  forall (line : str) (y : Z) (c : list CanvasOp),
    (length line <= fuel)%nat ->
    exists segs,
      line = concat segs ++ fst (fst (wrap_loop fuel line y c))
      /\ Forall (fun seg => len seg = WRAP) segs
      /\ len (fst (fst (wrap_loop fuel line y c))) <= WRAP
      /\ (line <> [] -> 1 <= len (fst (fst (wrap_loop fuel line y c))))
      /\ snd (fst (wrap_loop fuel line y c)) = y - LINE_HEIGHT * len segs
      /\ drawn (snd (wrap_loop fuel line y c))
         = drawn c ++ combine (heights y (length segs)) segs.
Proof.
  induction fuel as [|fuel IH]; intros line y c Hfuel.
  - destruct line; [|simpl in Hfuel; lia].
    exists []. simpl. rewrite app_nil_r. unfold len, WRAP. simpl.
    split; [reflexivity|]. split; [constructor|]. split; [lia|].
    split; [congruence|]. split; [lia | reflexivity].
  - cbn [wrap_loop]. destruct (Z.ltb_spec WRAP (len line)) as [Hlong|Hfits].
    + assert (Hseg : slice_to line WRAP = firstn (Z.to_nat WRAP) line)
        by (apply slice_to_firstn; unfold WRAP; lia).
      assert (Hrest : slice_from line WRAP = skipn (Z.to_nat WRAP) line)
        by (apply slice_from_skipn; unfold WRAP in *; lia).
      assert (Hlen : len (slice_from line WRAP) = len line - WRAP).
      { rewrite Hrest. unfold len in *. rewrite length_skipn.
        unfold WRAP in *. lia. }
      destruct (IH (slice_from line WRAP) (y - LINE_HEIGHT)
                  (c ++ [DrawString MARGIN y (slice_to line WRAP)]))
        as (segs & Hcat & Hsegs & Hfit & Hpos & Hy & Hdrawn).
      { unfold len, WRAP in *. lia. }
      exists (slice_to line WRAP :: segs). repeat split.
      * cbn [concat]. rewrite <- app_assoc, <- Hcat, Hseg, Hrest.
        symmetry. apply firstn_skipn.
      * constructor; [|assumption]. rewrite Hseg. unfold len in *.
        rewrite length_firstn. unfold WRAP in *. lia.
      * assumption.
      * intros _. apply Hpos. intros Hnil. rewrite Hnil in Hlen.
        unfold len, WRAP in *. simpl in Hlen. lia.
      * rewrite Hy. unfold len. simpl length. lia.
      * rewrite Hdrawn, drawn_app. simpl length. rewrite heights_S.
        simpl. now rewrite <- app_assoc.
    + exists []. simpl. rewrite app_nil_r.
      split; [reflexivity|]. split; [constructor|]. split; [assumption|].
      split; [|split; [unfold len; simpl; lia | reflexivity]].
      intros Hne. destruct line; [congruence|]. unfold len. simpl. lia.
Qed.

(** What [strip] removes is whitespace at the two ends. *)
Lemma strip_decompose (s : str) :
  exists lead trail,
    s = lead ++ strip s ++ trail
    /\ Forall (fun x => isspace x = true) lead
    /\ Forall (fun x => isspace x = true) trail.
Proof.
  destruct (lstrip_spec s) as (lead & Hs & Hlead).
  destruct (lstrip_spec (rev (lstrip s))) as (w & Hr & Hw).
  exists lead, (rev w). split; [|split; [assumption | now apply Forall_rev]].
  rewrite Hs at 1. f_equal. unfold strip, rstrip.
  rewrite <- (rev_involutive (lstrip s)) at 1. rewrite Hr at 1.
  now rewrite rev_app_distr.
Qed.

(** X18.  A non-blank line of any length is drawn as ceil(len/110) strings, one
    line height apart from the cursor down: first the segments of exactly
    110 characters, then the rest with the whitespace at its two ends
    removed.  The segments and the rest as it is before the stripping (1 to
    110 characters) are together the line, so what is drawn differs from
    the line only by the whitespace at the ends of the rest; the last
    string drawn can be shorter than the rest, and empty. *)
Theorem draw_line_wrapped
    (height y : Z) (c : list CanvasOp) (line : str) :
  strip line <> [] ->
  exists segs rest lead trail,
    line = concat segs ++ rest
    /\ Forall (fun seg => len seg = WRAP) segs
    /\ 1 <= len rest <= WRAP
    /\ rest = lead ++ strip rest ++ trail
    /\ Forall (fun x => isspace x = true) lead
    /\ Forall (fun x => isspace x = true) trail
    /\ len segs + 1 = ceil_div (len line) WRAP
    /\ drawn (snd (draw_line height (y, c) line))
       = drawn c
         ++ combine (heights y (S (length segs))) (segs ++ [strip rest]).
Proof.
  intros Hnb.
  assert (Hne : line <> []) by (intros ->; now apply Hnb).
  destruct (wrap_loop_spec (length line) line y c (le_n _))
    as (segs & Hcat & Hsegs & Hfit & Hpos & Hy & Hdrawn).
  specialize (Hpos Hne).
  destruct (strip_decompose (fst (fst (wrap_loop (length line) line y c))))
    as (lead & trail & Hdec & Hlead & Htrail).
  exists segs, (fst (fst (wrap_loop (length line) line y c))), lead, trail.
  split; [assumption|]. split; [assumption|]. split; [now split|].
  split; [assumption|]. split; [assumption|]. split; [assumption|]. split.
  - assert (Hlen : len line
                   = WRAP * len segs
                     + len (fst (fst (wrap_loop (length line) line y c)))).
    { rewrite Hcat at 1. rewrite len_app. f_equal.
      clear - Hsegs. induction Hsegs as [|seg segs Hseg _ IH].
      - reflexivity.
      - cbn [concat]. rewrite len_app, IH, Hseg. unfold len. simpl length. lia. }
    apply ceil_div_unique; [reflexivity|]. lia.
  - rewrite draw_line_nonblank by assumption. rewrite Hdrawn, Hy.
    rewrite <- app_assoc. f_equal.
    assert (Hh : forall k y0, heights y0 (S k)
                              = heights y0 k ++ [y0 - LINE_HEIGHT * Z.of_nat k]).
    { intros k y0. unfold heights. now rewrite seq_S, map_app. }
    rewrite Hh, combine_app_same; [reflexivity|].
    unfold heights. now rewrite length_map, length_seq.
Qed.

Lemma draw_line_wrapped_witness :
  drawn (snd (draw_line 792 (722, []) (repeat 97%N 110 ++ [SPACE])))
  = [(722, repeat 97%N 110); (710, [])]
  /\ exists segs rest lead trail,
       repeat 97%N 110 ++ [SPACE] = concat segs ++ rest
       /\ Forall (fun seg => len seg = WRAP) segs
       /\ 1 <= len rest <= WRAP
       /\ rest = lead ++ strip rest ++ trail
       /\ Forall (fun x => isspace x = true) lead
       /\ Forall (fun x => isspace x = true) trail
       /\ len segs + 1 = ceil_div (len (repeat 97%N 110 ++ [SPACE])) WRAP
       /\ drawn (snd (draw_line 792 (722, []) (repeat 97%N 110 ++ [SPACE])))
          = drawn [] ++ combine (heights 722 (S (length segs)))
                                (segs ++ [strip rest]).
Proof.
  split; [vm_compute; reflexivity|].
  apply (draw_line_wrapped 792 722 [] (repeat 97%N 110 ++ [SPACE])).
  vm_compute. discriminate.
Defined.

(** ** The cursor *)

Lemma draw_line_blank (height y : Z) (c : list CanvasOp) (line : str) :
  strip line = [] -> draw_line height (y, c) line = (y - LINE_HEIGHT, c).
Proof. intros H. unfold draw_line. now rewrite H. Qed.

(** X19.  Blank lines draw nothing and start no page: they only lower the cursor,
    by one line height each, however low it already is. *)
Theorem blank_lines_only_lower_cursor
    (height y : Z) (c : list CanvasOp) (lines : list str) :
  Forall (fun line => strip line = []) lines ->
  fold_left (draw_line height) lines (y, c) = (y - LINE_HEIGHT * len lines, c).
Proof.
  intros H. revert y. induction H as [|line lines Hline _ IH]; intros y.
  - simpl. f_equal. unfold len. simpl. lia.
  - cbn [fold_left]. rewrite draw_line_blank by assumption. rewrite IH.
    f_equal. unfold len. simpl length. lia.
Qed.

Lemma blank_lines_only_lower_cursor_witness :
  fold_left (draw_line 792) [[]; [SPACE]; [TAB; SPACE]] (50, [])
  = (50 - LINE_HEIGHT * len [[]; [SPACE]; [TAB; SPACE]], []).
Proof.
  apply (blank_lines_only_lower_cursor 792 50 [] [[]; [SPACE]; [TAB; SPACE]]).
  repeat constructor.
Defined.

Lemma draw_line_below (top height y : Z) (c : list CanvasOp) (line : str) :
  height - MARGIN <= top -> y <= top ->
  Forall (fun d => fst d <= top) (drawn c) ->
  fst (draw_line height (y, c) line) <= top
  /\ Forall (fun d => fst d <= top) (drawn (snd (draw_line height (y, c) line))).
Proof.
  intros Htop Hy Hc.
  destruct (strip line) as [|s0 sl] eqn:Hs.
  - rewrite draw_line_blank by assumption. simpl. split; [unfold LINE_HEIGHT; lia | assumption].
  - assert (Hnb : strip line <> []) by (rewrite Hs; discriminate).
    destruct (wrap_loop_spec (length line) line y c (le_n _))
      as (segs & _ & _ & _ & _ & Hy' & Hdrawn).
    pose proof (draw_line_nonblank height y c line Hnb) as Hd.
    assert (Hle : snd (fst (wrap_loop (length line) line y c)) <= y).
    { rewrite Hy'. pose proof (len_nonneg segs). unfold LINE_HEIGHT. lia. }
    split.
    + unfold draw_line. rewrite Hs. cbn [truthy negb].
      destruct (wrap_loop (length line) line y c) as [[l' y'] c'].
      cbn [fst snd] in *.
      destruct (y' - LINE_HEIGHT <? MARGIN); cbn [fst];
        [assumption | unfold LINE_HEIGHT; lia].
    + rewrite Hd, Hdrawn. repeat (apply Forall_app; split); try assumption.
      * apply Forall_forall. intros [h t] Hin. apply in_combine_l in Hin.
        unfold heights in Hin. apply in_map_iff in Hin.
        destruct Hin as (i & <- & _). cbn [fst]. unfold LINE_HEIGHT. lia.
      * repeat constructor. cbn [fst]. lia.
Qed.

Lemma layout_below_top (lines : list str) :
  forall (y : Z) (c : list CanvasOp),
    y <= 752 ->
    Forall (fun d => fst d <= 752) (drawn c) ->
    Forall (fun d => fst d <= 752)
           (drawn (snd (fold_left (draw_line 792) lines (y, c)))).
Proof.
  induction lines as [|line lines IH]; intros y c Hy Hc; [assumption|].
  cbn [fold_left].
  destruct (draw_line_below 752 792 y c line) as [Hy' Hc'];
    [unfold MARGIN; lia | assumption | assumption |].
  destruct (draw_line 792 (y, c) line) as [y' c']. now apply IH.
Qed.

(** X20.  Nothing is ever drawn above the title: every string of the PDF is at
    height 752 or lower, on every page. *)
Theorem generate_pdf_below_top (filled_text : str) :
  Forall (fun d => fst d <= 752) (drawn (generate_pdf filled_text)).
Proof.
  unfold generate_pdf. rewrite drawn_app, layout_unfold.
  apply Forall_app. split; [|constructor].
  apply layout_below_top; [lia|].
  repeat constructor. simpl. lia.
Qed.

(** X21.  When every line of the text is non-blank and has at most 110
    characters, the whole PDF is drawn at or above the bottom margin. *)
Theorem generate_pdf_short_lines_on_page (filled_text : str) :
  Forall (fun line => strip line <> [] /\ len line <= WRAP)
         (split NL filled_text) ->
  Forall (fun d => MARGIN <= fst d) (drawn (generate_pdf filled_text)).
Proof.
  intros Hlines. unfold generate_pdf. rewrite drawn_app, layout_unfold.
  apply Forall_app. split; [|constructor].
  apply (short_lines_stay_above_margin 792); try assumption.
  - unfold MARGIN. lia.
  - unfold MARGIN. lia.
  - repeat constructor. unfold MARGIN. simpl. lia.
Qed.

Lemma generate_pdf_short_lines_on_page_witness :
  Forall (fun d => MARGIN <= fst d)
         (drawn (generate_pdf (lit "Name: Ann" ++ [NL] ++ lit "Age: 41"))).
Proof.
  apply (generate_pdf_short_lines_on_page
           (lit "Name: Ann" ++ [NL] ++ lit "Age: 41")).
  repeat constructor; try (vm_compute; discriminate).
Defined.

(* ================================================================== *)
(** * The OCR adapter: failures and the shape of the text *)
(* ================================================================== *)

Section OCRFailures.

Variables (pdf image : Type).
Variable convert_from_bytes : pdf -> list image + str.
Variable image_to_string : image -> option str.

Lemma ocr_pages_raises (images : list image) (img : image) :
  In img images -> image_to_string img = None ->
  forall full_text, ocr_pages image image_to_string images full_text = None.
Proof.
  induction images as [|i images IH]; intros Hin Hnone acc; [contradiction|].
  simpl. destruct (image_to_string i) as [t|] eqn:Hi; [|reflexivity].
  destruct Hin as [-> | Hin]; [congruence|]. now apply IH.
Qed.

End OCRFailures.

(** X6.  An exception of the OCR engine on any one page ends [pdf_to_text] with
    that exception: no text is returned for the other pages and no message
    is shown. *)
Theorem pdf_to_text_page_failure
    (pdf image : Type) (convert_from_bytes : pdf -> list image + str)
    (image_to_string : image -> option str)
    (pdf_file : pdf) (images : list image) (img : image) (tr : Trace) :
  convert_from_bytes pdf_file = inl images ->
  In img images ->
  image_to_string img = None ->
  pdf_to_text pdf image convert_from_bytes image_to_string pdf_file tr
  = (None, tr).
Proof.
  intros Hconv Hin Hnone. unfold pdf_to_text. rewrite Hconv. unfold ret.
  now rewrite (ocr_pages_raises image image_to_string images img Hin Hnone).
Qed.

Lemma pdf_to_text_page_failure_witness :
  pdf_to_text (list (option str)) (option str) pages_of read_page torn_pages []
  = (None, []).
Proof.
  apply (pdf_to_text_page_failure (list (option str)) (option str) pages_of
           read_page torn_pages torn_pages None []).
  - reflexivity.
  - right. left. reflexivity.
  - reflexivity.
Defined.

(** X7.  A document with at least one page, all read by the OCR engine, gives a
    text that ends with a blank line and is therefore never empty, also
    when every page is blank. *)
Theorem pdf_to_text_never_empty
    (pdf image : Type) (convert_from_bytes : pdf -> list image + str)
    (image_to_string : image -> option str)
    (pdf_file : pdf) (images : list image) (texts : list str) (tr : Trace) :
  convert_from_bytes pdf_file = inl images ->
  map image_to_string images = map Some texts ->
  images <> [] ->
  exists body,
    pdf_to_text pdf image convert_from_bytes image_to_string pdf_file tr
    = (Some (body ++ [NL; NL]), tr).
Proof.
  intros Hconv Hocr Hne. unfold pdf_to_text. rewrite Hconv. unfold ret.
  rewrite (ocr_pages_all image image_to_string images texts Hocr). simpl app.
  assert (Htexts : texts <> []).
  { intros ->. destruct images; [contradiction | discriminate]. }
  destruct (exists_last Htexts) as (front & last & ->).
  exists (concat (map (fun t => clean_text t ++ [NL; NL]) front)
          ++ clean_text last).
  rewrite map_app, concat_app. simpl. now rewrite app_nil_r, <- app_assoc.
Qed.

Lemma pdf_to_text_never_empty_witness :
  exists body,
    pdf_to_text (list (option str)) (option str) pages_of read_page
      [Some [SPACE]] []
    = (Some (body ++ [NL; NL]), []).
Proof.
  apply (pdf_to_text_never_empty (list (option str)) (option str) pages_of
           read_page [Some [SPACE]] [Some [SPACE]] [[SPACE]] []).
  - reflexivity.
  - reflexivity.
  - discriminate.
Defined.

(* ================================================================== *)
(** * The page script *)
(* ================================================================== *)

Lemma shown_history_skip (ws rest : list Widget) :
  forallb (fun w => negb (is_question w)) ws = true ->
  shown_history (ws ++ rest) = shown_history rest.
Proof.
  induction ws as [|w ws IH]; [reflexivity|].
  simpl. intros [Hw Hws]%andb_true_iff.
  destruct w; simpl in Hw; try discriminate; now apply IH.
Qed.

Lemma shown_history_pairs (l : list (str * str)) :
  shown_history
    (flat_map (fun qa => [QuestionShown (fst qa); AnswerShown (snd qa)]) l)
  = l.
Proof.
  induction l as [|[q a] l IH]; [reflexivity|]. simpl. now rewrite IH.
Qed.

Lemma shown_history_widgets (history : list (str * str)) :
  shown_history (history_widgets history) = rev history.
Proof.
  destruct history as [|qa history]; [reflexivity|].
  unfold history_widgets. cbn [shown_history]. apply shown_history_pairs.
Qed.

Section PageFacts.

Variables (pdf image : Type).
Variable convert_from_bytes : pdf -> list image + str.
Variable image_to_string : image -> option str.
Variables key mdl : str.
Variable transport : nat -> Request -> Response.

Lemma page_top_plain :
  forallb (fun w => negb (is_question w)) (page_top key) = true.
Proof. unfold page_top. now destruct (truthy key). Qed.

Lemma upload_step_cached (f : pdf) (s : Session) (tr : Trace) :
  ocr_text s <> [] ->
  upload_step pdf image convert_from_bytes image_to_string f s tr
  = (Some s, tr).
Proof.
  intros H. unfold upload_step. apply truthy_true in H. now rewrite H.
Qed.

(** The upload step changes nothing but [ocr_text], and that only when it
    was empty; it sends nothing. *)
Lemma upload_step_keeps (f : pdf) (s s1 : Session) (tr : Trace) :
  fst (upload_step pdf image convert_from_bytes image_to_string f s tr)
  = Some s1 ->
  filled_text s1 = filled_text s
  /\ qa_history s1 = qa_history s
  /\ (ocr_text s <> [] -> ocr_text s1 = ocr_text s).
Proof.
  unfold upload_step. destruct (truthy (ocr_text s)) eqn:Ht; cbn [negb].
  - intros [= <-]. now repeat split.
  - unfold bind.
    destruct (pdf_to_text pdf image convert_from_bytes image_to_string f tr)
      as [[t|] tr1]; cbn [ret fst]; [|discriminate].
    intros [= <-]. cbn. repeat split.
    intros Hne. apply truthy_true in Hne. congruence.
Qed.

Lemma upload_step_posted (f : pdf) (s : Session) (tr : Trace) :
  posted (snd (upload_step pdf image convert_from_bytes image_to_string f s tr))
  = posted tr.
Proof.
  unfold upload_step. destruct (truthy (ocr_text s)); cbn [negb]; [reflexivity|].
  unfold bind, pdf_to_text.
  destruct (convert_from_bytes f) as [images|e]; cbn.
  - now destruct (ocr_pages image image_to_string images []).
  - rewrite posted_app. simpl. now rewrite app_nil_r.
Qed.

Lemma fill_step_eq (click : bool) (s : Session) (tr : Trace) :
  fill_step key mdl transport click s tr
  = if click && truthy (ocr_text s)
    then ({| ocr_text := ocr_text s;
             filled_text :=
               fst (groq_fill_missing key mdl transport (ocr_text s) tr);
             qa_history := qa_history s |},
          snd (groq_fill_missing key mdl transport (ocr_text s) tr))
    else (s, tr).
Proof.
  unfold fill_step. destruct (click && truthy (ocr_text s)); [|reflexivity].
  unfold bind, ret.
  now destruct (groq_fill_missing key mdl transport (ocr_text s) tr).
Qed.

Lemma question_step_eq (question : str) (s : Session) (tr : Trace) :
  question_step key mdl transport question s tr
  = if truthy question
    then ({| ocr_text := ocr_text s;
             filled_text := filled_text s;
             qa_history :=
               qa_history s
               ++ [(question,
                    fst (groq_answer_question key mdl transport
                           (filled_text s) question tr))] |},
          snd (groq_answer_question key mdl transport (filled_text s)
                 question tr))
    else (s, tr).
Proof.
  unfold question_step. destruct (truthy question); [|reflexivity].
  unfold bind, ret.
  now destruct (groq_answer_question key mdl transport (filled_text s)
                  question tr).
Qed.

Lemma page_script_with_file (inp : Inputs pdf) (f : pdf) (s : Session)
    (tr : Trace) :
  in_file inp = Some f ->
  page_script pdf image convert_from_bytes image_to_string key mdl transport
    inp s tr
  = match fst (upload_step pdf image convert_from_bytes image_to_string f s tr)
    with
    | Some s1 =>
        rest_of_page pdf key mdl transport inp s1
          (snd (upload_step pdf image convert_from_bytes image_to_string f s tr))
    | None =>
        ({| after := s; page := page_top key; completed := false |},
         snd (upload_step pdf image convert_from_bytes image_to_string f s tr))
    end.
Proof.
  intros Hf. unfold page_script. rewrite Hf. unfold bind at 1.
  destruct (upload_step pdf image convert_from_bytes image_to_string f s tr)
    as [[s1|] tr1]; cbn [fst snd]; [|reflexivity].
  unfold rest_of_page, bind.
  destruct (fill_step key mdl transport (in_click inp) s1 tr1) as [s2 tr2].
  cbn [fst snd]. destruct (truthy (filled_text s2)); [|reflexivity].
  now destruct (question_step key mdl transport (in_question inp) s2 tr2).
Qed.

End PageFacts.

Section RunFacts.

Variables (pdf image : Type).
Variable convert_from_bytes : pdf -> list image + str.
Variable image_to_string : image -> option str.
Variables key mdl : str.
Variable transport : nat -> Request -> Response.

Lemma fill_step_keeps (click : bool) (s : Session) (tr : Trace) :
  ocr_text (fst (fill_step key mdl transport click s tr)) = ocr_text s
  /\ qa_history (fst (fill_step key mdl transport click s tr)) = qa_history s.
Proof.
  rewrite fill_step_eq. now destruct (click && truthy (ocr_text s)).
Qed.

Lemma question_step_keeps (question : str) (s : Session) (tr : Trace) :
  ocr_text (fst (question_step key mdl transport question s tr)) = ocr_text s
  /\ filled_text (fst (question_step key mdl transport question s tr))
     = filled_text s
  /\ exists added,
       qa_history (fst (question_step key mdl transport question s tr))
       = qa_history s ++ added
       /\ (length added <= 1)%nat.
Proof.
  rewrite question_step_eq. destruct (truthy question); cbn.
  - split; [reflexivity|]. split; [reflexivity|].
    eexists. split; [reflexivity | simpl; lia].
  - split; [reflexivity|]. split; [reflexivity|].
    exists []. split; [now rewrite app_nil_r | simpl; lia].
Qed.

Lemma rest_of_page_keeps (inp : Inputs pdf) (s1 : Session) (tr1 : Trace) :
  ocr_text (after (fst (rest_of_page pdf key mdl transport inp s1 tr1)))
  = ocr_text s1
  /\ exists added,
       qa_history (after (fst (rest_of_page pdf key mdl transport inp s1 tr1)))
       = qa_history s1 ++ added
       /\ (length added <= 1)%nat.
Proof.
  unfold rest_of_page. cbv zeta.
  destruct (fill_step_keeps (in_click inp) s1 tr1) as [Ho Hq].
  destruct (truthy (filled_text (fst (fill_step key mdl transport
                                        (in_click inp) s1 tr1)))); cbn [fst after].
  - destruct (question_step_keeps (in_question inp)
                (fst (fill_step key mdl transport (in_click inp) s1 tr1))
                (snd (fill_step key mdl transport (in_click inp) s1 tr1)))
      as (Ho' & _ & added & Hq' & Hl).
    split; [congruence|]. exists added. split; [congruence | assumption].
  - split; [assumption|]. exists []. rewrite app_nil_r. split; [assumption | simpl; lia].
Qed.

Lemma page_script_keeps (inp : Inputs pdf) (s : Session) (tr : Trace) :
  (ocr_text s <> [] ->
   ocr_text (after (fst (page_script pdf image convert_from_bytes
                           image_to_string key mdl transport inp s tr)))
   = ocr_text s)
  /\ exists added,
       qa_history (after (fst (page_script pdf image convert_from_bytes
                                 image_to_string key mdl transport inp s tr)))
       = qa_history s ++ added
       /\ (length added <= 1)%nat.
Proof.
  destruct (in_file inp) as [f|] eqn:Hf.
  - rewrite (page_script_with_file _ _ _ _ _ _ _ inp f s tr Hf).
    destruct (fst (upload_step pdf image convert_from_bytes image_to_string
                     f s tr)) as [s1|] eqn:Hu.
    + destruct (upload_step_keeps _ _ _ _ f s s1 tr Hu) as (_ & Hq & Ho).
      destruct (rest_of_page_keeps inp s1
                  (snd (upload_step pdf image convert_from_bytes
                          image_to_string f s tr)))
        as (Ho' & added & Hq' & Hl).
      split; [intros Hne; rewrite Ho'; now apply Ho|].
      exists added. split; [congruence | assumption].
    + cbn. split; [reflexivity|].
      exists []. split; [now rewrite app_nil_r | simpl; lia].
  - unfold page_script. rewrite Hf. cbn.
    split; [reflexivity|].
    exists []. split; [now rewrite app_nil_r | simpl; lia].
Qed.

Lemma session_runs_cons (inp : Inputs pdf) (inputs : list (Inputs pdf))
    (s : Session) (tr : Trace) :
  session_runs pdf image convert_from_bytes image_to_string key mdl transport
    (inp :: inputs) s tr
  = session_runs pdf image convert_from_bytes image_to_string key mdl transport
      inputs
      (after (fst (page_script pdf image convert_from_bytes image_to_string
                     key mdl transport inp s tr)))
      (snd (page_script pdf image convert_from_bytes image_to_string
              key mdl transport inp s tr)).
Proof.
  cbn [session_runs]. unfold bind.
  now destruct (page_script pdf image convert_from_bytes image_to_string
                  key mdl transport inp s tr).
Qed.

End RunFacts.

(** With an OCR text in the session a run does not consult the rasteriser
    or the OCR engine. *)
Lemma page_script_cached
    (pdf image image' : Type)
    (convert_from_bytes : pdf -> list image + str)
    (image_to_string : image -> option str)
    (convert_from_bytes' : pdf -> list image' + str)
    (image_to_string' : image' -> option str)
    (key mdl : str) (transport : nat -> Request -> Response)
    (inp : Inputs pdf) (s : Session) (tr : Trace) :
  ocr_text s <> [] ->
  page_script pdf image' convert_from_bytes' image_to_string' key mdl transport
    inp s tr
  = page_script pdf image convert_from_bytes image_to_string key mdl transport
      inp s tr.
Proof.
  intros Hne. destruct (in_file inp) as [f|] eqn:Hf.
  - rewrite !(page_script_with_file _ _ _ _ _ _ _ inp f s tr Hf).
    now rewrite !upload_step_cached by assumption.
  - unfold page_script. now rewrite Hf.
Qed.

(** X22.  Once the session holds an OCR text it never changes again: whatever is
    uploaded, clicked or asked in the later runs, [ocr_text] stays what it
    was.  From then on the runs do not consult the rasteriser or the OCR
    engine: with any other rasteriser and OCR engine they end in the same
    session and leave the same trace. *)
Theorem ocr_text_computed_once
    (pdf image image' : Type)
    (convert_from_bytes : pdf -> list image + str)
    (image_to_string : image -> option str)
    (convert_from_bytes' : pdf -> list image' + str)
    (image_to_string' : image' -> option str)
    (key mdl : str) (transport : nat -> Request -> Response)
    (inputs : list (Inputs pdf)) (s : Session) (tr : Trace) :
  ocr_text s <> [] ->
  ocr_text (fst (session_runs pdf image convert_from_bytes image_to_string
                   key mdl transport inputs s tr))
  = ocr_text s
  /\ session_runs pdf image' convert_from_bytes' image_to_string'
       key mdl transport inputs s tr
     = session_runs pdf image convert_from_bytes image_to_string
         key mdl transport inputs s tr.
Proof.
  revert s tr. induction inputs as [|inp inputs IH]; intros s tr Hne.
  - now split.
  - rewrite !session_runs_cons.
    rewrite (page_script_cached pdf image image' convert_from_bytes
               image_to_string convert_from_bytes' image_to_string'
               key mdl transport inp s tr Hne).
    destruct (page_script_keeps pdf image convert_from_bytes image_to_string
                key mdl transport inp s tr) as [Ho _].
    specialize (Ho Hne).
    destruct (IH (after (fst (page_script pdf image convert_from_bytes
                                image_to_string key mdl transport inp s tr)))
                 (snd (page_script pdf image convert_from_bytes
                         image_to_string key mdl transport inp s tr)))
      as [IH1 IH2]; [now rewrite Ho|].
    split; [now rewrite IH1 | exact IH2].
Qed.

Lemma ocr_text_computed_once_witness :
  ocr_text
    (fst (session_runs (list (option str)) (option str) pages_of read_page
            (lit "k") [] always_500
            [ {| in_file := Some two_pages; in_click := true;
                 in_question := lit "Who?" |};
              {| in_file := Some torn_pages; in_click := false;
                 in_question := [] |} ]
            filled_session []))
  = ocr_text filled_session
  /\ session_runs (list (option str)) (option str) no_pages read_page
       (lit "k") [] always_500
       [ {| in_file := Some two_pages; in_click := true;
            in_question := lit "Who?" |};
         {| in_file := Some torn_pages; in_click := false;
            in_question := [] |} ]
       filled_session []
     = session_runs (list (option str)) (option str) pages_of read_page
         (lit "k") [] always_500
         [ {| in_file := Some two_pages; in_click := true;
              in_question := lit "Who?" |};
           {| in_file := Some torn_pages; in_click := false;
              in_question := [] |} ]
         filled_session [].
Proof.
  apply (ocr_text_computed_once (list (option str)) (option str) (option str)
           pages_of read_page no_pages read_page (lit "k") [] always_500).
  discriminate.
Defined.

(** X23.  The history of questions only grows, by at most one entry per run: the
    history at the start of a session's runs is a prefix of the history at
    their end. *)
Theorem qa_history_only_grows
    (pdf image : Type) (convert_from_bytes : pdf -> list image + str)
    (image_to_string : image -> option str)
    (key mdl : str) (transport : nat -> Request -> Response)
    (inputs : list (Inputs pdf)) (s : Session) (tr : Trace) :
  exists added,
    qa_history (fst (session_runs pdf image convert_from_bytes image_to_string
                       key mdl transport inputs s tr))
    = qa_history s ++ added
    /\ (length added <= length inputs)%nat.
Proof.
  revert s tr. induction inputs as [|inp inputs IH]; intros s tr.
  - exists []. cbn. split; [now rewrite app_nil_r | lia].
  - rewrite session_runs_cons.
    destruct (page_script_keeps pdf image convert_from_bytes image_to_string
                key mdl transport inp s tr) as [_ (a1 & Hq1 & Hl1)].
    destruct (IH (after (fst (page_script pdf image convert_from_bytes
                                image_to_string key mdl transport inp s tr)))
                 (snd (page_script pdf image convert_from_bytes
                         image_to_string key mdl transport inp s tr)))
      as (a2 & Hq2 & Hl2).
    exists (a1 ++ a2). split.
    + now rewrite Hq2, Hq1, app_assoc.
    + rewrite length_app. simpl. lia.
Qed.

(** X24.  A question left in the box is asked again at every run: two runs with
    the same inputs add two entries for it to the history. *)
Theorem question_asked_at_every_run
    (pdf image : Type) (convert_from_bytes : pdf -> list image + str)
    (image_to_string : image -> option str)
    (key mdl : str) (transport : nat -> Request -> Response)
    (f : pdf) (question : str) (s : Session) (tr : Trace) :
  ocr_text s <> [] ->
  filled_text s <> [] ->
  question <> [] ->
  exists a1 a2,
    qa_history
      (fst (session_runs pdf image convert_from_bytes image_to_string
              key mdl transport
              [ {| in_file := Some f; in_click := false;
                   in_question := question |};
                {| in_file := Some f; in_click := false;
                   in_question := question |} ] s tr))
    = qa_history s ++ [(question, a1); (question, a2)].
Proof.
  intros Hocr Hfilled Hq.
  assert (Hrun : forall s0 tr0,
             ocr_text s0 <> [] -> filled_text s0 <> [] ->
             exists a,
               after (fst (page_script pdf image convert_from_bytes
                             image_to_string key mdl transport
                             {| in_file := Some f; in_click := false;
                                in_question := question |} s0 tr0))
               = {| ocr_text := ocr_text s0; filled_text := filled_text s0;
                    qa_history := qa_history s0 ++ [(question, a)] |}).
  { intros s0 tr0 Ho Hf.
    rewrite (page_script_with_file pdf image convert_from_bytes
               image_to_string key mdl transport
               {| in_file := Some f; in_click := false;
                  in_question := question |} f s0 tr0 eq_refl).
    rewrite upload_step_cached by assumption. cbn [fst snd].
    unfold rest_of_page. cbv zeta. cbn [in_click in_question].
    rewrite fill_step_eq. cbn [andb fst snd].
    apply truthy_true in Hf. rewrite Hf.
    rewrite question_step_eq. apply truthy_true in Hq. rewrite Hq.
    cbn [fst after]. eexists. reflexivity. }
  rewrite !session_runs_cons. cbn [session_runs ret fst].
  destruct (Hrun s tr Hocr Hfilled) as (a1 & H1).
  set (r1 := page_script _ _ _ _ _ _ _ _ s tr) in *.
  destruct (Hrun (after (fst r1)) (snd r1)) as (a2 & H2).
  { now rewrite H1. }
  { now rewrite H1. }
  exists a1, a2. rewrite H2, H1. cbn. now rewrite <- app_assoc.
Qed.

Lemma question_asked_at_every_run_witness :
  exists a1 a2,
    qa_history
      (fst (session_runs (list (option str)) (option str) pages_of read_page
              (lit "k") [] (always_200 (lit "Ann"))
              [ {| in_file := Some two_pages; in_click := false;
                   in_question := lit "Who?" |};
                {| in_file := Some two_pages; in_click := false;
                   in_question := lit "Who?" |} ]
              filled_session []))
    = qa_history filled_session ++ [(lit "Who?", a1); (lit "Who?", a2)].
Proof.
  apply (question_asked_at_every_run (list (option str)) (option str) pages_of
           read_page (lit "k") [] (always_200 (lit "Ann")) two_pages
           (lit "Who?") filled_session []); discriminate.
Defined.

(** X25.  The history is shown newest first: the pairs on the page are the
    session's history in reverse, and none is shown on a page without a
    file, without a filled text, or cut short by an exception. *)
Theorem history_shown_newest_first
    (pdf image : Type) (convert_from_bytes : pdf -> list image + str)
    (image_to_string : image -> option str)
    (key mdl : str) (transport : nat -> Request -> Response)
    (inp : Inputs pdf) (s : Session) (tr : Trace) :
  shown_history
    (page (fst (page_script pdf image convert_from_bytes image_to_string
                  key mdl transport inp s tr)))
  = match in_file inp with
    | Some _ =>
        if completed (fst (page_script pdf image convert_from_bytes
                             image_to_string key mdl transport inp s tr))
           && truthy (filled_text
                        (after (fst (page_script pdf image convert_from_bytes
                                       image_to_string key mdl transport
                                       inp s tr))))
        then rev (qa_history
                    (after (fst (page_script pdf image convert_from_bytes
                                   image_to_string key mdl transport
                                   inp s tr))))
        else []
    | None => []
    end.
Proof.
  destruct (in_file inp) as [f|] eqn:Hf.
  - rewrite (page_script_with_file _ _ _ _ _ _ _ inp f s tr Hf).
    destruct (fst (upload_step pdf image convert_from_bytes image_to_string
                     f s tr)) as [s1|].
    + unfold rest_of_page. cbv zeta.
      set (r2 := fill_step key mdl transport (in_click inp) s1 _).
      destruct (truthy (filled_text (fst r2))) eqn:Ht; cbn [fst page after completed].
      * destruct (question_step_keeps key mdl transport (in_question inp)
                    (fst r2) (snd r2)) as (_ & Hft & _).
        rewrite Hft, Ht. cbn [andb].
        rewrite <- !app_assoc.
        rewrite shown_history_skip by apply page_top_plain.
        cbn [app shown_history]. apply shown_history_widgets.
      * rewrite Ht. cbn [andb].
        rewrite shown_history_skip by apply page_top_plain. reflexivity.
    + cbn [fst page completed andb]. rewrite <- (app_nil_r (page_top key)).
      now rewrite shown_history_skip by apply page_top_plain.
  - unfold page_script. rewrite Hf. cbn [ret fst page].
    rewrite <- (app_nil_r (page_top key)).
    now rewrite shown_history_skip by apply page_top_plain.
Qed.

(** X26.  A run sends no request unless there is a file in the uploader and the
    button is clicked or a question is in the box; such a run also leaves
    the filled text and the history as they were. *)
Theorem idle_run_sends_nothing
    (pdf image : Type) (convert_from_bytes : pdf -> list image + str)
    (image_to_string : image -> option str)
    (key mdl : str) (transport : nat -> Request -> Response)
    (inp : Inputs pdf) (s : Session) (tr : Trace) :
  in_file inp = None \/ (in_click inp = false /\ in_question inp = []) ->
  posted (snd (page_script pdf image convert_from_bytes image_to_string
                 key mdl transport inp s tr))
  = posted tr
  /\ filled_text (after (fst (page_script pdf image convert_from_bytes
                                image_to_string key mdl transport inp s tr)))
     = filled_text s
  /\ qa_history (after (fst (page_script pdf image convert_from_bytes
                               image_to_string key mdl transport inp s tr)))
     = qa_history s.
Proof.
  intros Hidle. destruct (in_file inp) as [f|] eqn:Hf.
  - destruct Hidle as [Habs | [Hclick Hq]]; [discriminate|].
    rewrite (page_script_with_file _ _ _ _ _ _ _ inp f s tr Hf).
    pose proof (upload_step_posted pdf image convert_from_bytes
                  image_to_string f s tr) as Hp.
    destruct (fst (upload_step pdf image convert_from_bytes image_to_string
                     f s tr)) as [s1|] eqn:Hu.
    + destruct (upload_step_keeps _ _ _ _ f s s1 tr Hu) as (Hft & Hqa & _).
      unfold rest_of_page. cbv zeta. rewrite Hclick, Hq.
      rewrite fill_step_eq. cbn [andb fst snd].
      rewrite question_step_eq. cbn [truthy fst snd].
      now destruct (truthy (filled_text s1)); cbn [fst snd after].
    + now cbn.
  - unfold page_script. rewrite Hf. now cbn.
Qed.

Lemma idle_run_sends_nothing_witness :
  posted (snd (page_script (list (option str)) (option str) pages_of read_page
                 (lit "k") [] always_500
                 {| in_file := Some two_pages; in_click := false;
                    in_question := [] |} new_session []))
  = posted [].
Proof.
  apply (idle_run_sends_nothing (list (option str)) (option str) pages_of
           read_page (lit "k") [] always_500
           {| in_file := Some two_pages; in_click := false;
              in_question := [] |} new_session []).
  right. split; reflexivity.
Defined.

(** X27.  When the rasteriser fails on a fresh session, the run shows its error
    and the session stays fresh: the button is disabled, so a click does
    nothing, the question box is not drawn, and nothing is sent. *)
Theorem failed_upload_leaves_session_fresh
    (pdf image : Type) (convert_from_bytes : pdf -> list image + str)
    (image_to_string : image -> option str)
    (key mdl : str) (transport : nat -> Request -> Response)
    (inp : Inputs pdf) (f : pdf) (e : str) (tr : Trace) :
  in_file inp = Some f ->
  convert_from_bytes f = inr e ->
  page_script pdf image convert_from_bytes image_to_string key mdl transport
    inp new_session tr
  = ({| after := new_session;
        page := page_top key
                ++ [Subheader (lit "OCR Extracted Text");
                    TextArea (lit "OCR Text") [];
                    Button (lit "AI: Fill Missing Fields") true];
        completed := true |},
     tr ++ [StError (PopplerError e)]).
Proof.
  intros Hf Hconv.
  rewrite (page_script_with_file _ _ _ _ _ _ _ inp f new_session tr Hf).
  unfold upload_step, pdf_to_text. rewrite Hconv. cbn.
  unfold rest_of_page. cbv zeta. rewrite fill_step_eq. cbn.
  now rewrite andb_false_r.
Qed.

Lemma failed_upload_leaves_session_fresh_witness :
  page_script (list (option str)) (option str) no_pages read_page
    (lit "k") [] always_500
    {| in_file := Some two_pages; in_click := true;
       in_question := lit "Who?" |} new_session []
  = ({| after := new_session;
        page := page_top (lit "k")
                ++ [Subheader (lit "OCR Extracted Text");
                    TextArea (lit "OCR Text") [];
                    Button (lit "AI: Fill Missing Fields") true];
        completed := true |},
     [] ++ [StError (PopplerError (lit "not a PDF"))]).
Proof.
  apply (failed_upload_leaves_session_fresh (list (option str)) (option str)
           no_pages read_page (lit "k") [] always_500
           {| in_file := Some two_pages; in_click := true;
              in_question := lit "Who?" |} two_pages (lit "not a PDF") []).
  - reflexivity.
  - reflexivity.
Defined.

(** X28.  When the OCR engine raises on a page of the first upload, the run ends
    there: the session is unchanged and nothing is shown below the
    uploader. *)
Theorem ocr_exception_ends_run
    (pdf image : Type) (convert_from_bytes : pdf -> list image + str)
    (image_to_string : image -> option str)
    (key mdl : str) (transport : nat -> Request -> Response)
    (inp : Inputs pdf) (f : pdf) (images : list image) (img : image)
    (s : Session) (tr : Trace) :
  in_file inp = Some f ->
  ocr_text s = [] ->
  convert_from_bytes f = inl images ->
  In img images ->
  image_to_string img = None ->
  page_script pdf image convert_from_bytes image_to_string key mdl transport
    inp s tr
  = ({| after := s; page := page_top key; completed := false |}, tr).
Proof.
  intros Hf Hempty Hconv Hin Hnone.
  rewrite (page_script_with_file _ _ _ _ _ _ _ inp f s tr Hf).
  unfold upload_step. rewrite Hempty. cbn [truthy negb]. unfold bind.
  unfold pdf_to_text. rewrite Hconv. unfold ret.
  now rewrite (ocr_pages_raises image image_to_string images img Hin Hnone).
Qed.

Lemma ocr_exception_ends_run_witness :
  page_script (list (option str)) (option str) pages_of read_page
    (lit "k") [] always_500
    {| in_file := Some torn_pages; in_click := true; in_question := [] |}
    new_session []
  = ({| after := new_session; page := page_top (lit "k");
        completed := false |}, []).
Proof.
  apply (ocr_exception_ends_run (list (option str)) (option str) pages_of
           read_page (lit "k") [] always_500
           {| in_file := Some torn_pages; in_click := true; in_question := [] |}
           torn_pages torn_pages None new_session []).
  - reflexivity.
  - reflexivity.
  - reflexivity.
  - right. left. reflexivity.
  - reflexivity.
Defined.

(** X29.  A click on the button of a session with an OCR text always gives a
    non-empty filled text, so the run offers the download of its PDF, also
    when every completion failed. *)
Theorem click_always_offers_download
    (pdf image : Type) (convert_from_bytes : pdf -> list image + str)
    (image_to_string : image -> option str)
    (key mdl : str) (transport : nat -> Request -> Response)
    (inp : Inputs pdf) (f : pdf) (s : Session) (tr : Trace) :
  in_file inp = Some f ->
  in_click inp = true ->
  ocr_text s <> [] ->
  filled_text (after (fst (page_script pdf image convert_from_bytes
                             image_to_string key mdl transport inp s tr)))
  = fst (groq_fill_missing key mdl transport (ocr_text s) tr)
  /\ fst (groq_fill_missing key mdl transport (ocr_text s) tr) <> []
  /\ In (DownloadButton (lit "Download Clean Filled PDF")
           (generate_pdf
              (fst (groq_fill_missing key mdl transport (ocr_text s) tr)))
           (lit "AI_Filled_Form.pdf") (lit "application/pdf"))
        (page (fst (page_script pdf image convert_from_bytes image_to_string
                      key mdl transport inp s tr))).
Proof.
  intros Hf Hclick Hocr.
  pose proof (groq_fill_missing_nonempty key mdl transport (ocr_text s) tr)
    as Hne.
  rewrite (page_script_with_file _ _ _ _ _ _ _ inp f s tr Hf).
  rewrite upload_step_cached by assumption. cbn [fst snd].
  unfold rest_of_page. cbv zeta. rewrite Hclick, fill_step_eq.
  pose proof Hocr as Ht. apply truthy_true in Ht. rewrite Ht.
  cbn [andb fst snd filled_text].
  pose proof Hne as Hne'. apply truthy_true in Hne'. rewrite Hne'.
  cbn [fst after page].
  split; [|split; [exact Hne|]].
  - now destruct (question_step_keeps key mdl transport (in_question inp)
                    {| ocr_text := ocr_text s;
                       filled_text :=
                         fst (groq_fill_missing key mdl transport (ocr_text s) tr);
                       qa_history := qa_history s |}
                    (snd (groq_fill_missing key mdl transport (ocr_text s) tr)))
      as (_ & -> & _).
  - apply in_or_app. left. apply in_or_app. right. simpl. tauto.
Qed.

Lemma click_always_offers_download_witness :
  fst (groq_fill_missing (lit "k") [] always_500 (ocr_text filled_session) [])
  <> [].
Proof.
  apply (click_always_offers_download (list (option str)) (option str)
           pages_of read_page (lit "k") [] always_500
           {| in_file := Some two_pages; in_click := true; in_question := [] |}
           two_pages filled_session []).
  - reflexivity.
  - reflexivity.
  - discriminate.
Defined.
